(** * rosa: a shallow embedding of the command helpers and their properties

    The development follows the Go sources:
    - [Helper]       : the helper package ([RandomLabel], [RankMapStringInt]);
    - [Interactive]  : [pkg/interactive/validation.go];
    - [Ingress]      : the [create ingress] command ([getRouteSelector], [run]);
    - [OidcConfig]   : [cmd/dlt/oidcconfig/cmd.go];
    - [MachinePool]  : the node pool builder exercised by [helper_test.go].

    Go strings are sequences of bytes and are modelled by [string]; [len] is
    [String.length] and the comparison operators are the bytewise
    lexicographic order.  Go maps are [gmap]s, a [nil] map or a [nil] error
    is [None]. *)

From Stdlib Require Import ZArith Ascii String List Permutation Sorted Lia Bool.
From stdpp Require Import base tactics option list gmap strings sorting.

Local Open Scope Z_scope.

(** ** Go runtime notions shared by the packages *)

(** An [error] value carries its message. *)
Definition error := string.

(** [byte(x)] for an [int] [x]: conversion keeps the low eight bits. *)
Definition byte_of_int (x : Z) : Z := x mod 256.

(** [string(chars)] for a [[]byte]. *)
Definition string_of_bytes (chars : list Z) : string :=
  fold_right (fun b s => String (ascii_of_N (Z.to_N b)) s) EmptyString chars.

Definition code_of (c : ascii) : Z := Z.of_N (N_of_ascii c).

Lemma length_string_of_bytes chars :
  String.length (string_of_bytes chars) = length chars.
Proof. induction chars as [|b chars IH]; simpl; congruence. Qed.

Lemma get_string_of_bytes chars i c :
  String.get i (string_of_bytes chars) = Some c ->
  exists b, chars !! i = Some b /\ c = ascii_of_N (Z.to_N b).
Proof.
  revert i; induction chars as [|b chars IH]; intros i; simpl; [discriminate|].
  destruct i as [|i]; simpl.
  - intros [= <-]. eauto.
  - apply IH.
Qed.

Lemma code_of_byte b :
  0 <= b < 256 -> code_of (ascii_of_N (Z.to_N b)) = b.
Proof.
  intros Hb. unfold code_of. rewrite N_ascii_embedding; lia.
Qed.

(** Go's [<] on strings, the bytewise lexicographic order, is [String.ltb]. *)
Lemma string_compare_refl (a : string) : String.compare a a = Eq.
Proof.
  pose proof (String.compare_antisym a a) as H.
  destruct (String.compare a a); simpl in H; congruence.
Qed.

Lemma ascii_compare_lt_trans (a b c : ascii) :
  Ascii.compare a b = Lt -> Ascii.compare b c = Lt -> Ascii.compare a c = Lt.
Proof. unfold Ascii.compare. rewrite !N.compare_lt_iff. lia. Qed.

Lemma string_compare_lt_trans (a b c : string) :
  String.compare a b = Lt -> String.compare b c = Lt -> String.compare a c = Lt.
Proof.
  revert b c; induction a as [|x a IH]; intros [|y b] [|z c]; simpl; try congruence.
  destruct (Ascii.compare x y) eqn:Hxy; try discriminate;
    destruct (Ascii.compare y z) eqn:Hyz; try discriminate; intros Hab Hbc.
  - apply Ascii.compare_eq_iff in Hxy as ->. rewrite Hyz. eauto.
  - apply Ascii.compare_eq_iff in Hxy as ->. rewrite Hyz. reflexivity.
  - apply Ascii.compare_eq_iff in Hyz as <-. rewrite Hxy. reflexivity.
  - rewrite (ascii_compare_lt_trans x y z) by assumption. reflexivity.
Qed.

Lemma string_ltb_irrefl (a : string) : String.ltb a a = false.
Proof. unfold String.ltb. rewrite string_compare_refl. reflexivity. Qed.

Lemma string_ltb_trans (a b c : string) :
  String.ltb a b = true -> String.ltb b c = true -> String.ltb a c = true.
Proof.
  unfold String.ltb. intros Hab Hbc.
  rewrite (string_compare_lt_trans a b c); [reflexivity| |].
  - destruct (String.compare a b); congruence.
  - destruct (String.compare b c); congruence.
Qed.

Lemma string_ltb_total (a b : string) :
  String.ltb a b = false -> String.ltb b a = false -> a = b.
Proof.
  unfold String.ltb. rewrite (String.compare_antisym b a).
  destruct (String.compare a b) eqn:Hab; simpl; try discriminate.
  intros _ _. apply String.compare_eq_iff, Hab.
Qed.

(** ** The helper package *)
Module Helper.

(** ASCII codes of important characters. *)
Definition aCode : Z := 97.
Definition zCode : Z := 122.
Definition zeroCode : Z := 48.
Definition nineCode : Z := 57.

(** Number of letters and digits. *)
Definition letterCount : Z := zCode - aCode + 1.
Definition digitCount : Z := nineCode - zeroCode + 1.

(** The body of [for size > 0 { size--; ... }]: the loop counter is the
    recursion argument, [Z.rem] and [Z.quot] are Go's [%] and [/]. *)
Fixpoint RandomLabel_loop (size : nat) (value : Z) (chars : list Z) : list Z :=
  match size with
  | O => chars
  | S size' =>
      if Z.rem (Z.of_nat size') 2 =? 0 then
        RandomLabel_loop size' (Z.quot value letterCount)
          (<[size' := byte_of_int (aCode + Z.rem value letterCount)]> chars)
      else
        RandomLabel_loop size' (Z.quot value digitCount)
          (<[size' := byte_of_int (zeroCode + Z.rem value digitCount)]> chars)
  end.

(** [RandomLabel size], with the result [value] of [rand.Int()] made an
    input.  [make([]byte, size)] panics on a negative [size]: [None]. *)
Definition RandomLabel (value : Z) (size : Z) : option string :=
  if size <? 0 then None
  else
    let chars := replicate (Z.to_nat size) 0 in
    Some (string_of_bytes (RandomLabel_loop (Z.to_nat size) value chars)).

Definition is_lower (c : ascii) : Prop := aCode <= code_of c <= zCode.
Definition is_digit (c : ascii) : Prop := zeroCode <= code_of c <= nineCode.

Definition label_char_ok (i : nat) (b : Z) : Prop :=
  if Nat.even i then aCode <= b <= zCode else zeroCode <= b <= nineCode.

Lemma rem2_even (n : nat) : (Z.rem (Z.of_nat n) 2 =? 0) = Nat.even n.
Proof.
  rewrite Z.rem_mod_nonneg by lia.
  destruct (Nat.even n) eqn:E.
  - apply Nat.even_spec in E as [k ->]. apply Z.eqb_eq.
    rewrite Nat2Z.inj_mul, Z.mul_comm. apply Z.mod_mul. lia.
  - apply Z.eqb_neq. intros H.
    assert (Nat.even n = true); [|congruence].
    apply Nat.even_spec. exists (Z.to_nat (Z.of_nat n / 2)).
    apply Nat2Z.inj. rewrite Nat2Z.inj_mul, Z2Nat.id.
    + pose proof (Z.div_mod (Z.of_nat n) 2). simpl Z.of_nat. lia.
    + apply Z.div_pos; lia.
Qed.

Lemma RandomLabel_loop_length size value chars :
  length (RandomLabel_loop size value chars) = length chars.
Proof.
  revert value chars; induction size as [|size IH]; intros value chars; simpl.
  - reflexivity.
  - destruct (Z.rem (Z.of_nat size) 2 =? 0); rewrite IH, length_insert; reflexivity.
Qed.

Lemma RandomLabel_loop_above size value chars i :
  (size <= i)%nat -> RandomLabel_loop size value chars !! i = chars !! i.
Proof.
  revert value chars; induction size as [|size IH]; intros value chars Hi; simpl.
  - reflexivity.
  - destruct (Z.rem (Z.of_nat size) 2 =? 0);
      rewrite IH by lia; apply list_lookup_insert_ne; lia.
Qed.

Lemma RandomLabel_loop_below size value chars i b :
  0 <= value -> (size <= length chars)%nat -> (i < size)%nat ->
  RandomLabel_loop size value chars !! i = Some b -> label_char_ok i b.
Proof.
  revert value chars; induction size as [|size IH]; intros value chars Hv Hlen Hi; simpl.
  - lia.
  - pose proof (rem2_even size) as Hev.
    destruct (decide (i = size)) as [->|Hne].
    + unfold label_char_ok. rewrite <- Hev.
      destruct (Z.rem (Z.of_nat size) 2 =? 0);
        rewrite RandomLabel_loop_above, list_lookup_insert_eq by lia;
        intros [= <-]; unfold byte_of_int;
        change letterCount with 26; change digitCount with 10;
        change aCode with 97; change zCode with 122;
        change zeroCode with 48; change nineCode with 57;
        rewrite Z.rem_mod_nonneg by lia.
      * pose proof (Z.mod_pos_bound value 26). rewrite Z.mod_small; lia.
      * pose proof (Z.mod_pos_bound value 10). rewrite Z.mod_small; lia.
    + destruct (Z.rem (Z.of_nat size) 2 =? 0); apply IH;
        try (rewrite length_insert); try lia; apply Z.quot_pos; try lia;
        [change letterCount with 26|change digitCount with 10]; lia.
Qed.

(** C9. For every non-negative [size] (and every value [rand.Int()] can
    return), [RandomLabel] yields a string of exactly [size] bytes whose
    characters at even indices are lowercase ASCII letters and whose
    characters at odd indices are decimal digits. *)
Theorem RandomLabel_shape (value size : Z) :
  0 <= size -> 0 <= value < 2 ^ 63 ->
  exists s, RandomLabel value size = Some s
    /\ String.length s = Z.to_nat size
    /\ forall i c, String.get i s = Some c ->
         if Nat.even i then is_lower c else is_digit c.
Proof.
  intros Hsize Hvalue. unfold RandomLabel.
  destruct (size <? 0) eqn:Hneg; [apply Z.ltb_lt in Hneg; lia|].
  eexists; split; [reflexivity|]. split.
  - rewrite length_string_of_bytes, RandomLabel_loop_length, length_replicate.
    reflexivity.
  - intros i c Hget.
    apply get_string_of_bytes in Hget as (b & Hb & ->).
    assert (Hi : (i < Z.to_nat size)%nat).
    { apply lookup_lt_Some in Hb.
      rewrite RandomLabel_loop_length, length_replicate in Hb. exact Hb. }
    apply RandomLabel_loop_below in Hb;
      [|lia|rewrite length_replicate; lia|exact Hi].
    unfold label_char_ok, is_lower, is_digit in *.
    unfold aCode, zCode, zeroCode, nineCode in *.
    destruct (Nat.even i); rewrite code_of_byte; lia.
Qed.

Lemma RandomLabel_shape_witness :
  exists s, RandomLabel 123456789 5 = Some s
    /\ String.length s = Z.to_nat 5
    /\ forall i c, String.get i s = Some c ->
         if Nat.even i then is_lower c else is_digit c.
Proof. apply RandomLabel_shape; lia. Defined.

Example RandomLabel_run : RandomLabel 123456789 5 = Some "g2v8b"%string.
Proof. vm_compute. reflexivity. Qed.


(** *** [RankMapStringInt] *)

(** The requirement Go puts on a [less] function: a strict weak ordering. *)
Record StrictWeakOrder {A} (less : A -> A -> bool) : Prop := {
  swo_irrefl : forall x, less x x = false;
  swo_trans : forall x y z, less x y = true -> less y z = true -> less x z = true;
  swo_incomp : forall x y z, less x y = false -> less y z = false -> less x z = false
}.

(** [not_after less x y]: [x] may stand before [y] in a slice sorted by
    [less], that is [!less(y, x)]. *)
Definition not_after {A} (less : A -> A -> bool) (x y : A) : Prop :=
  less y x = false.

(** What the Go runtime promises and no more: a [range] over a map visits
    every entry once, in an order of its choosing. *)
Definition RangeContract (range_map : gmap string Z -> list (string * Z)) : Prop :=
  forall m, range_map m ≡ₚ map_to_list m.

(** [sort.Slice] rearranges the slice (it need not be stable) and, for a
    strict weak ordering, leaves it sorted. *)
Record SortContract (sort_Slice : forall A, (A -> A -> bool) -> list A -> list A) : Prop := {
  sort_Slice_perm : forall A less l, sort_Slice A less l ≡ₚ l;
  sort_Slice_sorted : forall A less l,
    StrictWeakOrder less -> StronglySorted (not_after less) (sort_Slice A less l)
}.

Record kv := { Key : string; Value : Z }.

(** [ss[i].Value > ss[j].Value] *)
Definition value_less (x y : kv) : bool := Value y <? Value x.

(** The second [less]: longer keys first, then the greater key first. *)
Definition rank_less (a b : string) : bool :=
  let l1 := String.length a in
  let l2 := String.length b in
  if negb (l1 =? l2)%nat then (l2 <? l1)%nat else String.ltb b a.

(** [for i, kv := range ss { ranked[i] = kv.Key }] *)
Fixpoint fill_keys (i : nat) (ss : list kv) (ranked : list string) : list string :=
  match ss with
  | [] => ranked
  | e :: ss' => fill_keys (S i) ss' (<[i := Key e]> ranked)
  end.

Section RankMapStringInt.
Variable range_map : gmap string Z -> list (string * Z).
Variable sort_Slice : forall A, (A -> A -> bool) -> list A -> list A.

Definition RankMapStringInt (values : gmap string Z) : list string :=
  let ss := (fun e => {| Key := e.1; Value := e.2 |}) <$> range_map values in
  let ss := sort_Slice kv value_less ss in
  let ranked := replicate (size values) EmptyString in
  let ranked := fill_keys 0 ss ranked in
  sort_Slice string rank_less ranked.
End RankMapStringInt.

(** [a] is ranked strictly before [b]. *)
Definition rank_before (a b : string) : Prop :=
  (String.length b < String.length a)%nat
  \/ (String.length a = String.length b /\ String.ltb b a = true).

Lemma rank_less_spec a b : rank_less a b = true <-> rank_before a b.
Proof.
  unfold rank_less, rank_before.
  destruct (Nat.eqb_spec (String.length a) (String.length b)) as [He|Hne]; simpl.
  - split; [intros H; right; auto|intros [H|[_ H]]; [lia|exact H]].
  - rewrite Nat.ltb_lt. split; [auto|intros [H|[H _]]; [exact H|lia]].
Qed.

Lemma rank_before_trans a b c : rank_before a b -> rank_before b c -> rank_before a c.
Proof.
  unfold rank_before. intros [H1|[H1 H1']] [H2|[H2 H2']]; try (left; lia).
  right. split; [congruence|]. eapply string_ltb_trans; eassumption.
Qed.

Lemma rank_before_irrefl a : ~ rank_before a a.
Proof.
  unfold rank_before. rewrite string_ltb_irrefl. intros [H|[_ H]]; [lia|discriminate].
Qed.

Lemma rank_before_total a b : a <> b -> rank_before a b \/ rank_before b a.
Proof.
  intros Hne. unfold rank_before.
  destruct (lt_eq_lt_dec (String.length a) (String.length b)) as [[H|H]|H]; auto.
  destruct (String.ltb b a) eqn:Hba; auto.
  destruct (String.ltb a b) eqn:Hab; auto.
  destruct Hne. apply string_ltb_total; assumption.
Qed.

Lemma rank_less_swo : StrictWeakOrder rank_less.
Proof.
  split.
  - intros x. destruct (rank_less x x) eqn:H; [|reflexivity].
    apply rank_less_spec, rank_before_irrefl in H. destruct H.
  - intros x y z. rewrite !rank_less_spec. apply rank_before_trans.
  - intros x y z Hxy Hyz. destruct (rank_less x z) eqn:Hxz; [|reflexivity].
    apply rank_less_spec in Hxz.
    assert (Hn1 : ~ rank_before x y) by (rewrite <- rank_less_spec; congruence).
    assert (Hn2 : ~ rank_before y z) by (rewrite <- rank_less_spec; congruence).
    destruct (decide (x = y)) as [->|Hne1]; [contradiction|].
    destruct (decide (y = z)) as [->|Hne2]; [contradiction|].
    destruct (rank_before_total x y Hne1) as [|Hyx]; [contradiction|].
    destruct (rank_before_total y z Hne2) as [|Hzy]; [contradiction|].
    destruct (rank_before_irrefl x).
    eauto using rank_before_trans.
Qed.

Lemma fill_keys_spec ss : forall i ranked,
  length ranked = (i + length ss)%nat ->
  fill_keys i ss ranked = take i ranked ++ (Key <$> ss).
Proof.
  induction ss as [|e ss IH]; intros i ranked Hlen; simpl in *.
  - rewrite app_nil_r, take_ge by lia. reflexivity.
  - rewrite IH by (rewrite length_insert; lia).
    rewrite (take_S_r _ _ (Key e)) by (apply list_lookup_insert_eq; lia).
    rewrite take_insert_ge by lia. rewrite <- app_assoc. reflexivity.
Qed.

Lemma keys_dom (values : gmap string Z) :
  (map_to_list values).*1 ≡ₚ elements (dom values).
Proof.
  apply NoDup_Permutation.
  - apply NoDup_fst_map_to_list.
  - apply NoDup_elements.
  - intros k. rewrite elem_of_elements, elem_of_dom, list_elem_of_fmap. split.
    + intros ([k' v] & -> & Hin). apply elem_of_map_to_list in Hin. eauto.
    + intros [v Hv]. exists (k, v). split; [reflexivity|].
      apply elem_of_map_to_list, Hv.
Qed.

(** A slice without duplicates that [sort.Slice] sorted by [rank_less] is
    strictly ranked. *)
Lemma sorted_rank_before l :
  NoDup l -> StronglySorted (not_after rank_less) l -> StronglySorted rank_before l.
Proof.
  intros Hnd Hs. induction Hs as [|x l Hs IH Hall]; [constructor|].
  apply NoDup_cons in Hnd as [Hx Hnd].
  constructor; [auto|].
  rewrite Forall_forall in *. intros y Hy.
  destruct (rank_before_total x y) as [|Hyx]; [set_solver|assumption|].
  apply rank_less_spec in Hyx. specialize (Hall y Hy).
  unfold not_after in Hall. congruence.
Qed.

Lemma ranked_unique l1 l2 :
  StronglySorted rank_before l1 -> StronglySorted rank_before l2 ->
  l1 ≡ₚ l2 -> l1 = l2.
Proof.
  apply StronglySorted_unique_strong.
  intros x1 x2 _ _ H12 H21.
  destruct (rank_before_irrefl x1). eauto using rank_before_trans.
Qed.

Section RankMapStringInt_correct.
Variable range_map : gmap string Z -> list (string * Z).
Variable sort_Slice : forall A, (A -> A -> bool) -> list A -> list A.
Hypothesis Hrange : RangeContract range_map.
Hypothesis Hsort : SortContract sort_Slice.

Lemma RankMapStringInt_perm values :
  RankMapStringInt range_map sort_Slice values ≡ₚ elements (dom values).
Proof.
  unfold RankMapStringInt.
  rewrite (sort_Slice_perm _ Hsort).
  rewrite fill_keys_spec.
  - simpl. rewrite (sort_Slice_perm _ Hsort), <- list_fmap_compose.
    rewrite <- keys_dom, (Hrange values). reflexivity.
  - rewrite length_replicate, (sort_Slice_perm _ Hsort), length_fmap.
    rewrite (Hrange values), length_map_to_list. reflexivity.
Qed.

Lemma RankMapStringInt_sorted values :
  StronglySorted rank_before (RankMapStringInt range_map sort_Slice values).
Proof.
  apply sorted_rank_before.
  - rewrite RankMapStringInt_perm. apply NoDup_elements.
  - apply (sort_Slice_sorted _ Hsort), rank_less_swo.
Qed.
End RankMapStringInt_correct.

(** C7. Whatever order the runtime iterates the map in and however
    [sort.Slice] treats equal elements, [RankMapStringInt] returns a
    permutation of the map's keys in which a longer key stands before
    every shorter one and, among keys of equal length, the greater key
    stands first; any map with the same key set gives the same slice,
    so the values do not matter. *)
Theorem RankMapStringInt_ranked
    (range_map : gmap string Z -> list (string * Z))
    (sort_Slice : forall A, (A -> A -> bool) -> list A -> list A)
    (values : gmap string Z) :
  RangeContract range_map -> SortContract sort_Slice ->
  let ranked := RankMapStringInt range_map sort_Slice values in
  ranked ≡ₚ elements (dom values)
  /\ StronglySorted rank_before ranked
  /\ forall range_map' sort_Slice' (values' : gmap string Z),
       RangeContract range_map' -> SortContract sort_Slice' ->
       dom values' = dom values ->
       RankMapStringInt range_map' sort_Slice' values' = ranked.
Proof.
  intros Hrange Hsort ranked. subst ranked.
  split; [apply RankMapStringInt_perm; assumption|].
  split; [apply RankMapStringInt_sorted; assumption|].
  intros range_map' sort_Slice' values' Hrange' Hsort' Hdom.
  apply ranked_unique; try (apply RankMapStringInt_sorted; assumption).
  rewrite !RankMapStringInt_perm by assumption. rewrite Hdom. reflexivity.
Qed.

(** A runtime that meets both contracts: iteration in [map_to_list] order
    and a merge sort. *)
#[local] Instance not_after_dec {A} (less : A -> A -> bool) (x y : A) :
  Decision (not_after less x y).
Proof. unfold not_after. apply _. Defined.

Definition merge_sort_Slice (A : Type) (less : A -> A -> bool) (l : list A) : list A :=
  merge_sort (not_after less) l.

Lemma map_to_list_RangeContract : RangeContract map_to_list.
Proof. intros m. reflexivity. Qed.

Lemma merge_sort_Slice_SortContract : SortContract merge_sort_Slice.
Proof.
  split.
  - intros A less l. apply merge_sort_Permutation.
  - intros A less l Hswo. unfold merge_sort_Slice.
    assert (Transitive (not_after less)).
    { intros x y z Hxy Hyz. unfold not_after in *.
      eapply (swo_incomp _ Hswo); eassumption. }
    assert (Total (not_after less)).
    { intros x y. unfold not_after.
      destruct (less y x) eqn:Hyx; [right|left; reflexivity].
      destruct (less x y) eqn:Hxy; [|reflexivity].
      rewrite <- (swo_irrefl _ Hswo x). symmetry.
      eapply (swo_trans _ Hswo); eassumption. }
    apply StronglySorted_merge_sort; assumption.
Qed.

Definition sample_values : gmap string Z :=
  <["bb"%string := 1]> (<["a"%string := 7]> (<["ccc"%string := 0]> (<["ba"%string := 3]> ∅))).

Lemma RankMapStringInt_ranked_witness :
  let ranked := RankMapStringInt map_to_list merge_sort_Slice sample_values in
  ranked ≡ₚ elements (dom sample_values)
  /\ StronglySorted rank_before ranked
  /\ forall range_map' sort_Slice' (values' : gmap string Z),
       RangeContract range_map' -> SortContract sort_Slice' ->
       dom values' = dom sample_values ->
       RankMapStringInt range_map' sort_Slice' values' = ranked.
Proof.
  apply RankMapStringInt_ranked.
  - exact map_to_list_RangeContract.
  - exact merge_sort_Slice_SortContract.
Defined.

Example RankMapStringInt_run :
  RankMapStringInt map_to_list merge_sort_Slice sample_values
  = ["ccc"; "bb"; "ba"; "a"]%string.
Proof. vm_compute. reflexivity. Qed.

(** *** The slice and map helpers *)

Fixpoint Contains (s : list string) (str : string) : bool :=
  match s with
  | [] => false
  | v :: s' => if String.eqb v str then true else Contains s' str
  end.

(** [for _, v := range s { m[v] = true }] *)
Definition SliceToMap (s : list string) : gmap string bool :=
  foldl (fun m v => <[v := true]> m) ∅ s.

(** The [less] of [SliceToString]: shorter strings first, then the
    smaller string first. *)
Definition slice_less (a b : string) : bool :=
  let l1 := String.length a in
  let l2 := String.length b in
  if negb (l1 =? l2)%nat then (l1 <? l2)%nat else String.ltb a b.

(** A [range] over a [map[string]bool] that only takes the keys. *)
Definition KeysContract (range_keys : gmap string bool -> list string) : Prop :=
  forall m, range_keys m ≡ₚ (map_to_list m).*1.

Section SliceToString.
Variable range_keys : gmap string bool -> list string.
Variable sort_Slice : forall A, (A -> A -> bool) -> list A -> list A.

(** [SliceToString] sorts the slice it is given in place: the second
    component is the caller's slice after the call. *)
Definition SliceToString (s : list string) : string * list string :=
  let s := sort_Slice string slice_less s in
  (("[" ++ String.concat ", " s) ++ "]", s)%string.

Definition MapKeysToString (m : gmap string bool) : string :=
  let keys := foldl (fun keys k => keys ++ [k]) [] (range_keys m) in
  (SliceToString keys).1.
End SliceToString.

(** The first index at which [str] stands in [s], counted from [i]. *)
Fixpoint find_index (s : list string) (str : string) (i : nat) : option nat :=
  match s with
  | [] => None
  | v :: s' => if String.eqb v str then Some i else find_index s' str (S i)
  end.

(** RemoveStrFromSlice removes one occurrence of 'str' from the 's' slice
    if exists.  [append(s[:i], s[i+1:]...)] has room in the array of [s] and
    writes there: the second component is the caller's slice [s] after the
    call, the first the slice returned. *)
Definition RemoveStrFromSlice (s : list string) (str : string) : list string * list string :=
  match find_index s str 0 with
  | Some i =>
      let r := take i s ++ drop (S i) s in
      (r, r ++ drop (length r) s)
  | None => (s, s)
  end.

(** The string made of two double quotes. *)
Definition escaped_empty : string :=
  String (ascii_of_nat 34) (String (ascii_of_nat 34) EmptyString).

Definition HandleEscapedEmptyString (input : string) : string :=
  if String.eqb input escaped_empty then EmptyString else input.

Definition HandleEmptyStringOnSlice (slice : list string) : list string :=
  foldl (fun r s => if negb (String.eqb s "") then r ++ [s] else r) [] slice.

(** [strings.HasSuffix(s, suffix)] *)
Definition HasSuffix (s suffix : string) : bool :=
  (String.length suffix <=? String.length s)%nat
  && String.eqb
       (String.substring (String.length s - String.length suffix) (String.length suffix) s)
       suffix.

(** [for i := len(sufix); i >= 0; i--], from [i] down. *)
Fixpoint TrimUpToSuffix_loop (orig sufix : string) (i : nat) : string :=
  if HasSuffix orig (String.substring 0 i sufix) then
    String.substring 0 (String.length orig - i) orig
  else
    match i with
    | S i' => TrimUpToSuffix_loop orig sufix i'
    | O => orig
    end.

Definition TrimUpToSuffix (orig sufix : string) : string :=
  TrimUpToSuffix_loop orig sufix (String.length sufix).

Lemma Contains_elem_of (s : list string) (str : string) :
  Contains s str = true <-> str ∈ s.
Proof.
  induction s as [|v s IH]; simpl.
  - split; [discriminate|intros H; inversion H].
  - rewrite elem_of_cons. destruct (String.eqb_spec v str) as [->|Hne].
    + split; auto.
    + rewrite IH. split; [auto|]. intros [Heq|Hin]; [congruence|exact Hin].
Qed.

Lemma SliceToMap_fold (s : list string) : forall (m : gmap string bool) (k : string),
  foldl (fun m v => <[v := true]> m) m s !! k
  = if Contains s k then Some true else m !! k.
Proof.
  induction s as [|v s IH]; intros m k; simpl; [reflexivity|].
  rewrite IH. destruct (Contains s k).
  - destruct (String.eqb v k); reflexivity.
  - destruct (String.eqb_spec v k) as [->|Hne].
    + apply lookup_insert_eq.
    + apply lookup_insert_ne, Hne.
Qed.

(** X1. The map of [SliceToMap] holds [true] at exactly the strings of the
    slice and nothing elsewhere, so that reading it agrees with
    [Contains]. *)
Theorem SliceToMap_Contains (s : list string) (k : string) :
  SliceToMap s !! k = (if Contains s k then Some true else None)
  /\ (SliceToMap s !! k = Some true <-> k ∈ s)
  /\ (SliceToMap s !! k = None <-> k ∉ s).
Proof.
  unfold SliceToMap. rewrite SliceToMap_fold, lookup_empty.
  pose proof (Contains_elem_of s k) as H.
  destruct (Contains s k).
  - assert (k ∈ s) by (apply H; reflexivity).
    split; [reflexivity|]. split; split; try done.
  - assert (k ∉ s) by (intros Hin; apply H in Hin; discriminate).
    split; [reflexivity|]. split; split; try done.
Qed.

(** [a] may stand before [b] in a slice sorted by [slice_less]. *)
Definition slice_le (a b : string) : Prop :=
  a = b
  \/ (String.length a < String.length b)%nat
  \/ (String.length a = String.length b /\ String.ltb a b = true).

Lemma slice_less_rank_less a b : slice_less a b = rank_less b a.
Proof.
  unfold slice_less, rank_less.
  rewrite (Nat.eqb_sym (String.length b) (String.length a)). reflexivity.
Qed.

Lemma slice_less_swo : StrictWeakOrder slice_less.
Proof.
  destruct rank_less_swo as [Hi Ht Hn]. split.
  - intros x. rewrite slice_less_rank_less. apply Hi.
  - intros x y z. rewrite !slice_less_rank_less. eauto.
  - intros x y z. rewrite !slice_less_rank_less. eauto.
Qed.

Lemma not_after_slice_le a b : not_after slice_less a b <-> slice_le a b.
Proof.
  unfold not_after, slice_le. rewrite slice_less_rank_less.
  destruct (decide (a = b)) as [->|Hne].
  - split; [auto|]. intros _.
    destruct (rank_less b b) eqn:H; [|reflexivity].
    apply rank_less_spec, rank_before_irrefl in H. destruct H.
  - split.
    + intros Hab. right. destruct (rank_before_total b a) as [H|H]; [congruence| |].
      * unfold rank_before in H. destruct H as [H|[H1 H2]]; auto.
      * apply rank_less_spec in H. congruence.
    + intros [Heq|H]; [contradiction|].
      destruct (rank_less a b) eqn:Hab; [|reflexivity].
      apply rank_less_spec in Hab. destruct (rank_before_irrefl a).
      apply (rank_before_trans a b a); [exact Hab|].
      unfold rank_before. destruct H as [H|[H1 H2]]; auto.
Qed.

Lemma slice_sorted_unique l1 l2 :
  StronglySorted (not_after slice_less) l1 -> StronglySorted (not_after slice_less) l2 ->
  l1 ≡ₚ l2 -> l1 = l2.
Proof.
  apply StronglySorted_unique_strong.
  intros x1 x2 _ _ H12 H21. unfold not_after in *.
  rewrite slice_less_rank_less in *.
  destruct (decide (x1 = x2)) as [|Hne]; [assumption|].
  destruct (rank_before_total x1 x2 Hne) as [H|H]; apply rank_less_spec in H; congruence.
Qed.

Lemma StronglySorted_weaken {A} (R1 R2 : A -> A -> Prop) (l : list A) :
  (forall a b, R1 a b -> R2 a b) -> StronglySorted R1 l -> StronglySorted R2 l.
Proof.
  intros HR Hs. induction Hs as [|x l Hs IH Hall]; constructor; [exact IH|].
  eapply Forall_impl; [exact Hall|]. intros y. apply HR.
Qed.

(** X2. [SliceToString] leaves the caller's slice sorted, shorter strings
    first and strings of one length in increasing order, and renders it
    between brackets; slices with the same strings in any order, sorted by
    any [sort.Slice], give the same text and the same slice. *)
Theorem SliceToString_sorted
    (sort_Slice : forall A, (A -> A -> bool) -> list A -> list A) (s : list string) :
  SortContract sort_Slice ->
  let r := SliceToString sort_Slice s in
  r.2 ≡ₚ s
  /\ StronglySorted slice_le r.2
  /\ r.1 = (("[" ++ String.concat ", " r.2) ++ "]")%string
  /\ forall sort_Slice' s', SortContract sort_Slice' -> s' ≡ₚ s ->
       SliceToString sort_Slice' s' = r.
Proof.
  intros Hsort r. subst r. unfold SliceToString. simpl.
  split; [apply (sort_Slice_perm _ Hsort)|].
  split.
  { eapply StronglySorted_weaken; [|apply (sort_Slice_sorted _ Hsort), slice_less_swo].
    intros a b. apply not_after_slice_le. }
  split; [reflexivity|].
  intros sort_Slice' s' Hsort' Hperm.
  assert (sort_Slice' string slice_less s' = sort_Slice string slice_less s) as ->;
    [|reflexivity].
  apply slice_sorted_unique.
  - apply (sort_Slice_sorted _ Hsort'), slice_less_swo.
  - apply (sort_Slice_sorted _ Hsort), slice_less_swo.
  - rewrite (sort_Slice_perm _ Hsort'), (sort_Slice_perm _ Hsort). exact Hperm.
Qed.

Lemma SliceToString_sorted_witness :
  let r := SliceToString merge_sort_Slice ["bb"; "a"; "ab"; "a"]%string in
  r.2 ≡ₚ ["bb"; "a"; "ab"; "a"]%string
  /\ StronglySorted slice_le r.2
  /\ r.1 = (("[" ++ String.concat ", " r.2) ++ "]")%string
  /\ forall sort_Slice' s', SortContract sort_Slice' -> s' ≡ₚ ["bb"; "a"; "ab"; "a"]%string ->
       SliceToString sort_Slice' s' = r.
Proof. apply SliceToString_sorted, merge_sort_Slice_SortContract. Defined.

Example SliceToString_run :
  SliceToString merge_sort_Slice ["bb"; "a"; "ab"; "a"]%string
  = ("[a, a, ab, bb]"%string, ["a"; "a"; "ab"; "bb"]%string).
Proof. vm_compute. reflexivity. Qed.

Lemma append_each (l : list string) : forall keys,
  foldl (fun keys k => keys ++ [k]) keys l = keys ++ l.
Proof.
  induction l as [|k l IH]; intros keys; simpl.
  - rewrite app_nil_r. reflexivity.
  - rewrite IH, <- app_assoc. reflexivity.
Qed.

Lemma bool_keys_dom (m : gmap string bool) :
  (map_to_list m).*1 ≡ₚ elements (dom m).
Proof.
  apply NoDup_Permutation.
  - apply NoDup_fst_map_to_list.
  - apply NoDup_elements.
  - intros k. rewrite elem_of_elements, elem_of_dom, list_elem_of_fmap. split.
    + intros ([k' v] & -> & Hin). apply elem_of_map_to_list in Hin. eauto.
    + intros [v Hv]. exists (k, v). split; [reflexivity|].
      apply elem_of_map_to_list, Hv.
Qed.

(** X3. [MapKeysToString] renders the keys of the map, and only them,
    sorted and between brackets: the order in which the runtime iterates
    the map and the values held at the keys leave the text unchanged. *)
Theorem MapKeysToString_keys
    (range_keys : gmap string bool -> list string)
    (sort_Slice : forall A, (A -> A -> bool) -> list A -> list A)
    (m : gmap string bool) :
  KeysContract range_keys -> SortContract sort_Slice ->
  (exists keys, keys ≡ₚ elements (dom m) /\ StronglySorted slice_le keys
     /\ MapKeysToString range_keys sort_Slice m
        = (("[" ++ String.concat ", " keys) ++ "]")%string)
  /\ forall range_keys' sort_Slice' (m' : gmap string bool),
       KeysContract range_keys' -> SortContract sort_Slice' -> dom m' = dom m ->
       MapKeysToString range_keys' sort_Slice' m' = MapKeysToString range_keys sort_Slice m.
Proof.
  intros Hrange Hsort. unfold MapKeysToString, SliceToString.
  rewrite append_each. cbn [app fst]. split.
  - exists (sort_Slice string slice_less (range_keys m)). split; [|split].
    + rewrite (sort_Slice_perm _ Hsort), (Hrange m). apply bool_keys_dom.
    + eapply StronglySorted_weaken; [|apply (sort_Slice_sorted _ Hsort), slice_less_swo].
      intros a b. apply not_after_slice_le.
    + reflexivity.
  - intros range_keys' sort_Slice' m' Hrange' Hsort' Hdom.
    rewrite append_each. cbn [app fst]. do 3 f_equal.
    apply slice_sorted_unique.
    + apply (sort_Slice_sorted _ Hsort'), slice_less_swo.
    + apply (sort_Slice_sorted _ Hsort), slice_less_swo.
    + rewrite (sort_Slice_perm _ Hsort'), (sort_Slice_perm _ Hsort).
      rewrite (Hrange' m'), (Hrange m), !bool_keys_dom, Hdom. reflexivity.
Qed.

Definition map_keys (m : gmap string bool) : list string := (map_to_list m).*1.

Lemma map_keys_KeysContract : KeysContract map_keys.
Proof. intros m. reflexivity. Qed.

Definition sample_flags : gmap string bool :=
  <["zone"%string := true]> (<["az"%string := false]> (<["region"%string := true]> ∅)).

Lemma MapKeysToString_keys_witness :
  (exists keys, keys ≡ₚ elements (dom sample_flags) /\ StronglySorted slice_le keys
     /\ MapKeysToString map_keys merge_sort_Slice sample_flags
        = (("[" ++ String.concat ", " keys) ++ "]")%string)
  /\ forall range_keys' sort_Slice' (m' : gmap string bool),
       KeysContract range_keys' -> SortContract sort_Slice' -> dom m' = dom sample_flags ->
       MapKeysToString range_keys' sort_Slice' m'
       = MapKeysToString map_keys merge_sort_Slice sample_flags.
Proof.
  apply MapKeysToString_keys.
  - exact map_keys_KeysContract.
  - exact merge_sort_Slice_SortContract.
Defined.

Example MapKeysToString_run :
  MapKeysToString map_keys merge_sort_Slice sample_flags = "[az, zone, region]"%string.
Proof. vm_compute. reflexivity. Qed.

Lemma find_index_absent (s : list string) (str : string) : forall i,
  str ∉ s -> find_index s str i = None.
Proof.
  induction s as [|v s IH]; intros i Hin; simpl; [reflexivity|].
  apply not_elem_of_cons in Hin as [Hne Hin].
  destruct (String.eqb_spec v str); [congruence|]. apply IH, Hin.
Qed.

Lemma find_index_first (pre post : list string) (str : string) : forall i,
  str ∉ pre -> find_index (pre ++ str :: post) str i = Some (i + length pre)%nat.
Proof.
  induction pre as [|v pre IH]; intros i Hin; simpl.
  - rewrite String.eqb_refl. f_equal. lia.
  - apply not_elem_of_cons in Hin as [Hne Hin].
    destruct (String.eqb_spec v str); [congruence|].
    rewrite IH by exact Hin. f_equal. lia.
Qed.

Lemma drop_all_but_last (l : list string) : forall x,
  drop (length l) (x :: l) = [default x (last l)].
Proof.
  induction l as [|y l IH]; intros x; [reflexivity|].
  simpl length. rewrite skipn_cons, IH, last_cons.
  destruct (last l); reflexivity.
Qed.

(** X4. When [str] is not in the slice, [RemoveStrFromSlice] returns the
    slice as it is and changes nothing. *)
Theorem RemoveStrFromSlice_absent (s : list string) (str : string) :
  str ∉ s -> RemoveStrFromSlice s str = (s, s).
Proof.
  intros Hin. unfold RemoveStrFromSlice. rewrite find_index_absent by exact Hin.
  reflexivity.
Qed.

Lemma RemoveStrFromSlice_absent_witness :
  RemoveStrFromSlice ["a"; "b"]%string "c" = (["a"; "b"]%string, ["a"; "b"]%string).
Proof.
  apply RemoveStrFromSlice_absent.
  intros Hin. apply elem_of_cons in Hin as [Heq|Hin]; [discriminate|].
  apply elem_of_cons in Hin as [Heq|Hin]; [discriminate|].
  apply elem_of_nil in Hin. exact Hin.
Defined.

(** X5. When [str] is in the slice, [RemoveStrFromSlice] returns the slice
    without the first occurrence of [str], later ones staying, and the
    caller's slice, written in place, now holds the result followed by
    its old last element. *)
Theorem RemoveStrFromSlice_first (pre post : list string) (str : string) :
  str ∉ pre ->
  RemoveStrFromSlice (pre ++ str :: post) str
  = (pre ++ post, (pre ++ post) ++ [default str (last post)]).
Proof.
  intros Hin. unfold RemoveStrFromSlice.
  rewrite find_index_first by exact Hin. simpl.
  rewrite take_app_length.
  replace (S (length pre)) with (length (pre ++ [str]))
    by (rewrite length_app; simpl; lia).
  rewrite (cons_middle str pre post), app_assoc, drop_app_length.
  f_equal. f_equal.
  rewrite length_app, <- app_assoc, drop_app_add'; [|reflexivity].
  simpl. apply drop_all_but_last.
Qed.

Lemma RemoveStrFromSlice_first_witness :
  RemoveStrFromSlice (["a"%string] ++ "b"%string :: ["c"%string; "b"%string]) "b"
  = (["a"%string] ++ ["c"%string; "b"%string],
     (["a"%string] ++ ["c"%string; "b"%string])
     ++ [default "b"%string (last ["c"%string; "b"%string])]).
Proof.
  apply RemoveStrFromSlice_first.
  intros Hin. apply elem_of_cons in Hin as [Heq|Hin]; [discriminate|].
  apply elem_of_nil in Hin. exact Hin.
Defined.

Lemma HandleEmptyStringOnSlice_fold (slice : list string) : forall r,
  foldl (fun r s => if negb (String.eqb s "") then r ++ [s] else r) r slice
  = r ++ filter (fun s => s <> EmptyString) slice.
Proof.
  induction slice as [|s slice IH]; intros r; simpl.
  - rewrite app_nil_r. reflexivity.
  - rewrite IH. destruct (String.eqb_spec s "") as [->|Hne]; simpl.
    + rewrite filter_cons_False by (intros H; apply H; reflexivity). reflexivity.
    + rewrite filter_cons_True by exact Hne. rewrite <- app_assoc. reflexivity.
Qed.

(** X6. [HandleEmptyStringOnSlice] drops exactly the empty strings: what it
    returns is the slice filtered on being non-empty, in the same order; it
    holds no empty string and running it again changes nothing. *)
Theorem HandleEmptyStringOnSlice_filter (slice : list string) :
  HandleEmptyStringOnSlice slice = filter (fun s => s <> EmptyString) slice
  /\ (EmptyString ∉ HandleEmptyStringOnSlice slice)
  /\ HandleEmptyStringOnSlice (HandleEmptyStringOnSlice slice)
     = HandleEmptyStringOnSlice slice.
Proof.
  assert (Hf : forall l, HandleEmptyStringOnSlice l = filter (fun s => s <> EmptyString) l).
  { intros l. unfold HandleEmptyStringOnSlice. apply HandleEmptyStringOnSlice_fold. }
  split; [apply Hf|]. split.
  - rewrite Hf, list_elem_of_filter. intros [H _]. apply H. reflexivity.
  - rewrite !Hf. apply list_filter_filter_l. auto.
Qed.

(** Facts on [String.substring] and [String.append] for [TrimUpToSuffix]. *)
Lemma append_cons (c : ascii) (a b : string) :
  (String c a ++ b)%string = String c (a ++ b).
Proof. reflexivity. Qed.

Lemma append_nil_r (a : string) : (a ++ "")%string = a.
Proof. induction a as [|c a IH]; [reflexivity|]. rewrite append_cons, IH. reflexivity. Qed.

Lemma string_length_app (a b : string) :
  String.length (a ++ b) = (String.length a + String.length b)%nat.
Proof.
  induction a as [|c a IH]; [reflexivity|]. rewrite append_cons. simpl. congruence.
Qed.

Lemma substring_none (s : string) : forall n, String.substring n 0 s = EmptyString.
Proof.
  induction s as [|c s IH]; intros [|n]; simpl; try reflexivity. apply IH.
Qed.

Lemma substring_all (s : string) : String.substring 0 (String.length s) s = s.
Proof. induction s as [|c s IH]; simpl; congruence. Qed.

Lemma substring_app_l (a b : string) : String.substring 0 (String.length a) (a ++ b) = a.
Proof.
  induction a as [|c a IH]; [destruct b; reflexivity|].
  rewrite append_cons. simpl. congruence.
Qed.

Lemma substring_app_r (a b : string) (m : nat) :
  String.substring (String.length a) m (a ++ b) = String.substring 0 m b.
Proof.
  induction a as [|c a IH]; [reflexivity|]. rewrite append_cons. simpl. exact IH.
Qed.

Lemma substring_split (s : string) : forall n, (n <= String.length s)%nat ->
  s = (String.substring 0 n s ++ String.substring n (String.length s - n) s)%string.
Proof.
  induction s as [|c s IH]; intros [|n] Hn; simpl in *; try reflexivity; try lia.
  - rewrite substring_all. reflexivity.
  - rewrite append_cons. f_equal. apply IH. lia.
Qed.

Lemma substring_length (s : string) : forall n, (n <= String.length s)%nat ->
  String.length (String.substring 0 n s) = n.
Proof.
  induction s as [|c s IH]; intros [|n] Hn; simpl in *; try reflexivity; try lia.
  f_equal. apply IH. lia.
Qed.

Lemma HasSuffix_spec (s suffix : string) :
  HasSuffix s suffix = true <-> exists p, s = (p ++ suffix)%string.
Proof.
  unfold HasSuffix. rewrite andb_true_iff, Nat.leb_le, String.eqb_eq. split.
  - intros [Hlen Heq].
    exists (String.substring 0 (String.length s - String.length suffix) s).
    pose proof (substring_split s (String.length s - String.length suffix) ltac:(lia))
      as Hsplit.
    replace (String.length s - (String.length s - String.length suffix))%nat
      with (String.length suffix) in Hsplit by lia.
    rewrite Heq in Hsplit. exact Hsplit.
  - intros [p ->]. rewrite string_length_app. split; [lia|].
    replace (String.length p + String.length suffix - String.length suffix)%nat
      with (String.length p) by lia.
    rewrite substring_app_r. apply substring_all.
Qed.

Lemma TrimUpToSuffix_loop_spec (orig sufix : string) : forall i,
  (i <= String.length sufix)%nat ->
  exists k, (k <= i)%nat
    /\ orig = (TrimUpToSuffix_loop orig sufix i ++ String.substring 0 k sufix)%string
    /\ forall j, (k < j <= i)%nat -> HasSuffix orig (String.substring 0 j sufix) = false.
Proof.
  assert (Hhit : forall i, (i <= String.length sufix)%nat ->
    HasSuffix orig (String.substring 0 i sufix) = true ->
    orig = (String.substring 0 (String.length orig - i) orig
            ++ String.substring 0 i sufix)%string).
  { intros i Hi Hs. apply HasSuffix_spec in Hs as [p Hp]. rewrite Hp. clear Hp.
    rewrite string_length_app, substring_length by exact Hi.
    replace (String.length p + i - i)%nat with (String.length p) by lia.
    rewrite substring_app_l. reflexivity. }
  induction i as [|i IH]; intros Hi; simpl.
  - destruct (HasSuffix orig (String.substring 0 0 sufix)) eqn:Hs.
    + exists 0%nat. split; [lia|]. split; [apply (Hhit 0%nat Hi Hs)|]. intros j Hj. lia.
    + exfalso. assert (HasSuffix orig (String.substring 0 0 sufix) = true); [|congruence].
      apply HasSuffix_spec. exists orig. rewrite substring_none, append_nil_r.
      reflexivity.
  - destruct (HasSuffix orig (String.substring 0 (S i) sufix)) eqn:Hs.
    + exists (S i). split; [lia|]. split; [apply (Hhit (S i) Hi Hs)|]. intros j Hj. lia.
    + destruct (IH ltac:(lia)) as (k & Hk & Heq & Hno).
      exists k. split; [lia|]. split; [exact Heq|].
      intros j Hj. destruct (decide (j = S i)) as [->|Hne]; [exact Hs|].
      apply Hno. lia.
Qed.

(** X7. [TrimUpToSuffix] cuts from the end of [orig] the longest prefix of
    [sufix] that [orig] ends with: what it returns, followed by that prefix,
    is [orig], and [orig] ends with no longer prefix of [sufix]. *)
Theorem TrimUpToSuffix_longest (orig sufix : string) :
  exists i, (i <= String.length sufix)%nat
    /\ orig = (TrimUpToSuffix orig sufix ++ String.substring 0 i sufix)%string
    /\ forall j p, (i < j <= String.length sufix)%nat ->
         orig <> (p ++ String.substring 0 j sufix)%string.
Proof.
  destruct (TrimUpToSuffix_loop_spec orig sufix (String.length sufix))
    as (k & Hk & Heq & Hno); [lia|].
  exists k. split; [exact Hk|]. split; [exact Heq|].
  intros j p Hj Hp. specialize (Hno j Hj).
  assert (HasSuffix orig (String.substring 0 j sufix) = true); [|congruence].
  apply HasSuffix_spec. exists p. exact Hp.
Qed.

Lemma TrimUpToSuffix_loop_hit (orig sufix : string) (i : nat) :
  HasSuffix orig (String.substring 0 i sufix) = true ->
  TrimUpToSuffix_loop orig sufix i
  = String.substring 0 (String.length orig - i) orig.
Proof. destruct i; simpl; intros ->; reflexivity. Qed.

(** X8. Trimming a suffix that was appended gives back the string it was
    appended to. *)
Theorem TrimUpToSuffix_append (p sufix : string) :
  TrimUpToSuffix (p ++ sufix) sufix = p.
Proof.
  unfold TrimUpToSuffix. rewrite TrimUpToSuffix_loop_hit.
  - rewrite string_length_app.
    replace (String.length p + String.length sufix - String.length sufix)%nat
      with (String.length p) by lia.
    apply substring_app_l.
  - apply HasSuffix_spec. exists p. rewrite substring_all. reflexivity.
Qed.

Example TrimUpToSuffix_run :
  TrimUpToSuffix "cluster-name-abc" "-abcdef" = "cluster-name"%string
  /\ TrimUpToSuffix "cluster-name" "xyz" = "cluster-name"%string.
Proof. split; vm_compute; reflexivity. Qed.

End Helper.

(** ** Commands: reports, remote calls and [os.Exit] *)

(** The reporter's levels: [Infof], [Warnf] and [Errorf]. *)
Inductive level := Info | Warn | Error.

(** What a command does that the outside can observe; [C] is the type
    of the remote calls of the command at hand. *)
Inductive event (C : Type) :=
  | Report (lvl : level) (msg : string)
  | Println (text : string)
  | Spinner (running : bool)
  | Call (c : C)
  | Cleanup.
Arguments Report {C}.
Arguments Println {C}.
Arguments Spinner {C}.
Arguments Call {C}.
Arguments Cleanup {C}.

(** A command step either returns a value and the new package state or
    leaves the process through [os.Exit]. *)
Inductive outcome (S A : Type) :=
  | Done (a : A) (s : S)
  | Exited (code : Z).
Arguments Done {S A}.
Arguments Exited {S A}.

Definition cmd (S C A : Type) : Type := S -> list (event C) * outcome S A.

#[global] Instance cmd_ret {S C} : MRet (cmd S C) :=
  fun A a s => ([], Done a s).

#[global] Instance cmd_bind {S C} : MBind (cmd S C) :=
  fun A B f m s =>
    match m s with
    | (t, Done a s') => let '(t', o) := f a s' in (t ++ t', o)
    | (t, Exited code) => (t, Exited code)
    end.

Definition emit {S C} (e : event C) : cmd S C unit := fun s => ([e], Done tt s).
Definition gets {S C A} (f : S -> A) : cmd S C A := fun s => ([], Done (f s) s).
Definition modify {S C} (f : S -> S) : cmd S C unit := fun s => ([], Done tt (f s)).
Definition os_Exit {S C A} (code : Z) : cmd S C A := fun _ => ([], Exited code).

(** A run-time panic (a [nil] dereference, an index out of range) ends the
    process with status 2. *)
Definition panic {S C A} : cmd S C A := os_Exit 2.

(** [defer deferred] before [body]: the deferred call runs when [body]
    returns and not when the process leaves through [os.Exit].  (A panic
    would run it too; the commands are shown not to panic.) *)
Definition defer {S C A} (deferred : cmd S C unit) (body : cmd S C A) : cmd S C A :=
  a ← body; deferred;; mret a.

(** The deferred [r.Cleanup()] of the runtime, seen as one event. *)
Definition r_Cleanup {S C} : cmd S C unit := emit Cleanup.

Definition Infof {S C} (msg : string) : cmd S C unit := emit (Report Info msg).
Definition Warnf {S C} (msg : string) : cmd S C unit := emit (Report Warn msg).
Definition Errorf {S C} (msg : string) : cmd S C unit := emit (Report Error msg).

(** A remote call whose only result is an [error]. *)
Definition remote_call {S C} (result : C -> option error) (c : C) : cmd S C (option error) :=
  emit (Call c);; mret (result c).

(** The status the process ends with: a command that returns lets [main]
    return, which is status 0. *)
Definition exit_status {S C A} (r : list (event C) * outcome S A) : Z :=
  match r.2 with
  | Done _ _ => 0
  | Exited code => code
  end.

(** The remote calls of a trace, in order. *)
Definition calls {C} (t : list (event C)) : list C :=
  omap (fun e => match e with Call c => Some c | _ => None end) t.

(** A report that tells the user of a failure. *)
Definition is_failure {C} (e : event C) : Prop :=
  match e with
  | Report Warn _ | Report Error _ => True
  | _ => False
  end.

Definition failure_free {C} (t : list (event C)) : Prop :=
  Forall (fun e => ~ is_failure e) t.

(** The error policy on one run: a run that returns has reported no
    failure; a run that exits does so with status 1, and the report of the
    failure is the last thing it did. *)
Definition fail_fast {S C A} (r : list (event C) * outcome S A) : Prop :=
  match r.2 with
  | Done _ _ => failure_free r.1
  | Exited code =>
      code = 1 /\ exists pre lvl msg,
        r.1 = pre ++ [Report lvl msg] /\ lvl <> Info /\ failure_free pre
  end.

Definition FailFast {S C A} (m : cmd S C A) : Prop := forall s, fail_fast (m s).

Lemma calls_app {C} (t1 t2 : list (event C)) : calls (t1 ++ t2) = calls t1 ++ calls t2.
Proof. apply omap_app. Qed.

Lemma FailFast_ret {S C A} (a : A) : FailFast (mret a : cmd S C A).
Proof. intros s. constructor. Qed.

Lemma FailFast_bind {S C A B} (m : cmd S C A) (f : A -> cmd S C B) :
  FailFast m -> (forall a, FailFast (f a)) -> FailFast (m ≫= f).
Proof.
  intros Hm Hf s. specialize (Hm s).
  unfold mbind, cmd_bind. destruct (m s) as [t [a s'|code]]; [|exact Hm].
  specialize (Hf a s'). destruct (f a s') as [t' [b s''|code]]; unfold fail_fast in *; simpl in *.
  - apply Forall_app; auto.
  - destruct Hf as (-> & pre & lvl & msg & -> & Hlvl & Hpre). split; [reflexivity|].
    exists (t ++ pre), lvl, msg. rewrite app_assoc. repeat split; auto.
    apply Forall_app; auto.
Qed.


Lemma FailFast_gets {S C A} (f : S -> A) : FailFast (gets f : cmd S C A).
Proof. intros s. constructor. Qed.

Lemma FailFast_modify {S C} (f : S -> S) : FailFast (modify f : cmd S C unit).
Proof. intros s. constructor. Qed.

Lemma FailFast_emit {S C} (e : event C) : ~ is_failure e -> FailFast (emit e : cmd S C unit).
Proof. intros He s. repeat constructor. exact He. Qed.

Lemma FailFast_Infof {S C} msg : FailFast (Infof msg : cmd S C unit).
Proof. apply FailFast_emit. simpl. tauto. Qed.

Lemma FailFast_remote_call {S C} (result : C -> option error) c :
  FailFast (remote_call result c : cmd S C (option error)).
Proof.
  apply FailFast_bind; [apply FailFast_emit; simpl; tauto|intros; apply FailFast_ret].
Qed.


(** Report, then leave with status 1. *)
Lemma FailFast_Errorf_exit {S C A} msg :
  FailFast (Errorf msg;; os_Exit 1 : cmd S C A).
Proof.
  intros s. split; [reflexivity|]. exists [], Error, msg.
  repeat split; [discriminate|constructor].
Qed.

Lemma FailFast_Warnf_exit {S C A} msg :
  FailFast (Warnf msg;; os_Exit 1 : cmd S C A).
Proof.
  intros s. split; [reflexivity|]. exists [], Warn, msg.
  repeat split; [discriminate|constructor].
Qed.

Create HintDb failfast.
#[global] Hint Resolve FailFast_ret FailFast_gets FailFast_modify FailFast_Infof
  FailFast_remote_call FailFast_Errorf_exit FailFast_Warnf_exit : failfast.

(** Walks through a command: binds, branches, then the primitive steps. *)
Ltac fail_fast_step :=
  match goal with
  | |- FailFast _ => solve [auto with failfast]
  | |- FailFast (emit _) => apply FailFast_emit; simpl; tauto
  | |- FailFast (_ ≫= _) => apply FailFast_bind; [|intros]
  | |- FailFast (match ?x with _ => _ end) => destruct x eqn:?
  end.
Ltac fail_fast := repeat fail_fast_step.

(** ** The fallible steps of a command *)

(** A step that can fail is a local one, a parse, a prompt or a check,
    named after what the source calls, or a remote call. *)
Inductive site (C : Type) :=
  | Local (what : string)
  | Remote (c : C).
Arguments Local {C}.
Arguments Remote {C}.

(** A log holds the steps taken, in order, each with [None] when it
    passed and with the message to report when it failed.  A script lists
    its steps and stops at the first that fails. *)
Definition script (C A : Type) : Type := list (site C * option string) * option A.

#[global] Instance script_ret {C} : MRet (script C) :=
  fun A a => ([], Some a).

#[global] Instance script_bind {C} : MBind (script C) :=
  fun A B f m =>
    match m with
    | (l, Some a) => let '(l', r) := f a in (l ++ l', r)
    | (l, None) => (l, None)
    end.

(** The step [st] with the result [r]. *)
Definition attempt {C A} (st : site C) (r : A + string) : script C A :=
  match r with
  | inl a => ([(st, None)], Some a)
  | inr msg => ([(st, Some msg)], None)
  end.

(** The step [st], which fails with [msg] when [failed] holds. *)
Definition require {C} (st : site C) (failed : bool) (msg : string) : script C unit :=
  attempt st (if failed then inr msg else inl tt).

(** The step [st] with the error [err] it returned, reported as [f err]. *)
Definition check {C} (st : site C) (f : error -> string) (err : option error)
  : script C unit :=
  attempt st (match err with Some err => inr (f err) | None => inl tt end).

Definition or_message {A} (f : error -> string) (r : A + error) : A + string :=
  match r with
  | inl a => inl a
  | inr err => inr (f err)
  end.

Definition passed {C} (e : site C * option string) : Prop := e.2 = None.

(** The remote calls among the steps of a log. *)
Definition remote_sites {C} (log : list (site C * option string)) : list C :=
  omap (fun e => match e.1 with Remote c => Some c | Local _ => None end) log.

(** A run follows a log when its remote calls are the remote steps of the
    log, in order, and either every step passed, nothing was reported as
    failed and the run returned, status 0, or the last step of the log
    failed, all before it passed, the message of that step is the last
    thing the run did, reported as a warning or an error, and the process
    exited with status 1. *)
Definition follows {S C A} (log : list (site C * option string))
    (r : list (event C) * outcome S A) : Prop :=
  calls r.1 = remote_sites log
  /\ ((Forall passed log /\ failure_free r.1 /\ exit_status r = 0
       /\ exists a s', r.2 = Done a s')
      \/ (exists pre st msg t lvl,
            log = pre ++ [(st, Some msg)] /\ Forall passed pre
            /\ r.1 = t ++ [Report lvl msg] /\ lvl <> Info /\ failure_free t
            /\ r.2 = Exited 1)).

Lemma follows_pass {S C A} (log : list (site C * option string))
    (tr : list (event C)) (a : A) (s' : S) :
  Forall passed log -> failure_free tr -> calls tr = remote_sites log ->
  follows log (tr, Done a s').
Proof.
  intros Hlog Htr Hcalls. split; [exact Hcalls|]. left.
  repeat split; eauto.
Qed.

Lemma follows_fail {S C A} (log : list (site C * option string))
    (tr : list (event C)) (st : site C) (msg : string) (lvl : level) :
  last log = Some (st, Some msg) -> Forall passed (removelast log) ->
  last tr = Some (Report lvl msg) -> lvl <> Info -> failure_free (removelast tr) ->
  calls tr = remote_sites log ->
  follows log (tr, Exited 1 : outcome S A).
Proof.
  intros Hlog Hpre Htr Hlvl Hff Hcalls. split; [exact Hcalls|]. right.
  apply last_Some in Hlog as [pre ->]. apply last_Some in Htr as [t ->].
  rewrite removelast_last in Hpre, Hff.
  exists pre, st, msg, t, lvl. auto 10.
Qed.

(** ** Functions of Go's [strings] package used by the commands *)

(** [strings.TrimPrefix(s, prefix)] *)
Fixpoint TrimPrefix_aux (s prefix : string) : option string :=
  match prefix, s with
  | EmptyString, _ => Some s
  | String p prefix', String c s' =>
      if Ascii.eqb p c then TrimPrefix_aux s' prefix' else None
  | String _ _, EmptyString => None
  end.

Definition TrimPrefix (s prefix : string) : string :=
  default s (TrimPrefix_aux s prefix).

(** [strings.LastIndex(s, sep)] for a one-byte [sep]; -1 when absent. *)
Fixpoint LastIndex (s : string) (sep : ascii) : Z :=
  match s with
  | EmptyString => -1
  | String c s' =>
      let r := LastIndex s' sep in
      if 0 <=? r then r + 1 else if Ascii.eqb c sep then 0 else -1
  end.

(** [s[:index]] *)
Definition slice_to (s : string) (index : Z) : string :=
  String.substring 0 (Z.to_nat index) s.

(** ** [cmd/dlt/oidcconfig] *)
Module OidcConfig.

(** Modelled from the spec: the constants [aws.ModeAuto], [aws.ModeManual]
    and [aws.Modes] of [pkg/aws], which is not among the sources; the modes
    are auto and manual. *)
Definition ModeAuto : string := "auto".
Definition ModeManual : string := "manual".
Definition Modes : list string := [ModeAuto; ModeManual].

(** [fmt]'s [%s] of a [[]string]. *)
Definition format_strings (l : list string) : string :=
  ("[" ++ String.concat " " l ++ "]")%string.

Definition prefixForPrivateKeySecret : string := "rosa-private-key-".
Definition secretsManagerService : string := "secretsmanager".

(** The package variable [args]. *)
Record Args := {
  oidcPrivateKeySecretArn : string;
  region : string;
  redHatHosted : bool
}.

(** The package state a run can change: [args] and the switch of the
    [interactive] package. *)
Record State := {
  args : Args;
  interactive_enabled : bool
}.

Definition set_region (r : string) (s : State) : State :=
  {| args := {| oidcPrivateKeySecretArn := oidcPrivateKeySecretArn (args s);
                region := r;
                redHatHosted := redHatHosted (args s) |};
     interactive_enabled := interactive_enabled s |}.

Definition set_oidcPrivateKeySecretArn (a : string) (s : State) : State :=
  {| args := {| oidcPrivateKeySecretArn := a;
                region := region (args s);
                redHatHosted := redHatHosted (args s) |};
     interactive_enabled := interactive_enabled s |}.

Definition interactive_Enable (s : State) : State :=
  {| args := args s; interactive_enabled := true |}.

Record OidcConfigInput := {
  PrivateKeySecretArn : string;
  BucketName : string
}.

(** The remote calls of the command. *)
Inductive remote :=
  | HasAClusterUsingOidcConfig (bucketName : string)
  | DeleteRedHatHostedOidcConfig
  | DeleteSecretInSecretsManager (privateKeySecretArn : string)
  | DeleteS3Bucket (bucketName : string).

(** The parts of [arn.ARN] the command reads. *)
Record ARN := {
  arn_Service : string;
  arn_Region : string
}.

(** The command builder of [pkg/aws/commandbuilder], as the data it is
    given; how [Build] and [JoinCommands] render it is left to the world. *)
Inductive Service := SecretsManager | S3.
Inductive Command := DeleteSecret | Remove | RemoveBucket.
Inductive Param := SecretID | Region | Recursive.
Inductive Item :=
  | AddParam (p : Param) (value : string)
  | AddParamNoValue (p : Param)
  | AddValueNoParam (value : string).

Record CommandBuilder := {
  service : Service;
  command : option Command;
  params : list Item
}.

Definition NewSecretsManagerCommandBuilder : CommandBuilder :=
  {| service := SecretsManager; command := None; params := [] |}.
Definition NewS3CommandBuilder : CommandBuilder :=
  {| service := S3; command := None; params := [] |}.
Definition SetCommand (c : Command) (b : CommandBuilder) : CommandBuilder :=
  {| service := service b; command := Some c; params := params b |}.
Definition AddItem (i : Item) (b : CommandBuilder) : CommandBuilder :=
  {| service := service b; command := command b; params := params b ++ [i] |}.

Abbreviation oidc := (cmd State remote).

(** Everything the command receives from outside: the user, the flags,
    the libraries and packages that are not among the sources, and the
    remote services. *)
Record World := {
  NewRuntime : oidc unit;
  WithOCM : oidc unit;
  GetMode : string + error;
  GetRegion : string + error;
  mode_Changed : bool;
  GetOption : string + error;
  GetString : string -> string + error;
  ARNValidator : string -> option error;
  arn_Parse : string -> ARN + error;
  aws_SecretsManager : string;
  GetResourceIdFromSecretArn : string -> string + error;
  has_cluster : string -> bool;
  remote_result : remote -> option error;
  IsTerminal : bool;
  Build : CommandBuilder -> string;
  JoinCommands : list string -> string;
  oidcprovider_Run : list string -> oidc unit
}.

Inductive DeleteOidcConfigStrategy :=
  | DeleteRedHatHostedOidcConfigAutoStrategy (oidcConfig : OidcConfigInput)
  | DeleteOidcConfigAutoStrategy (oidcConfig : OidcConfigInput)
  | DeleteOidcConfigManualStrategy (oidcConfig : OidcConfigInput).

Section Command.
Variable w : World.

Definition buildOidcConfigInput : oidc OidcConfigInput :=
  a ← gets args;
  match arn_Parse w (oidcPrivateKeySecretArn a) with
  | inr err =>
      Errorf ("There was a problem parsing secret ARN '" ++ oidcPrivateKeySecretArn a
              ++ "' : " ++ err);; os_Exit 1
  | inl parsedSecretArn =>
      if negb (String.eqb (arn_Service parsedSecretArn) (aws_SecretsManager w)) then
        Errorf "Supplied secret ARN is not a valid Secrets Manager ARN";; os_Exit 1
      else if negb (String.eqb (region a) (arn_Region parsedSecretArn)) then
        Errorf ("Secret region '" ++ arn_Region parsedSecretArn
                ++ "' differs from chosen region '" ++ region a
                ++ "', please run the command supplying region parameter.");; os_Exit 1
      else
        match GetResourceIdFromSecretArn w (oidcPrivateKeySecretArn a) with
        | inr err =>
            Errorf ("There was a problem parsing secret ARN '" ++ oidcPrivateKeySecretArn a
                    ++ "' : " ++ err);; os_Exit 1
        | inl secretResourceName =>
            let bucketName := TrimPrefix secretResourceName prefixForPrivateKeySecret in
            let bucketName :=
              if negb (redHatHosted a) then
                let index := LastIndex bucketName "-" in
                if negb (index =? -1) then slice_to bucketName index else bucketName
              else bucketName in
            err ← remote_call (remote_result w) (HasAClusterUsingOidcConfig bucketName);
            match err with
            | Some err =>
                Errorf ("There was a problem checking if any clusters are using OIDC config '"
                        ++ bucketName ++ "' : " ++ err);; os_Exit 1
            | None =>
                if has_cluster w bucketName then
                  Errorf ("There are clusters using OIDC config '" ++ bucketName
                          ++ "', can't delete the configuration");; os_Exit 1
                else
                  mret {| BucketName := bucketName;
                          PrivateKeySecretArn := oidcPrivateKeySecretArn a |}
            end
        end
  end.

Definition execute_hosted (oidcConfig : OidcConfigInput) : oidc unit :=
  WithOCM w;;
  let privateKeySecretArn := PrivateKeySecretArn oidcConfig in
  let spin := IsTerminal w in
  (if IsTerminal w then Infof "Deleting Red Hat hosted OIDC configuration" else mret tt);;
  (if spin then emit (Spinner true) else mret tt);;
  err ← remote_call (remote_result w) DeleteRedHatHostedOidcConfig;
  match err with
  | Some err =>
      Errorf ("There was a problem deleting Red Hat Hosted OIDC Configuration: " ++ err);;
      os_Exit 1
  | None =>
      err ← remote_call (remote_result w) (DeleteSecretInSecretsManager privateKeySecretArn);
      match err with
      | Some err =>
          Errorf ("There was a problem deleting private key from secrets manager: " ++ err);;
          os_Exit 1
      | None =>
          (if spin then emit (Spinner false) else mret tt);;
          (if IsTerminal w then Infof "Deleted OIDC configuration" else mret tt)
      end
  end.

Definition execute_auto (oidcConfig : OidcConfigInput) : oidc unit :=
  let bucketName := BucketName oidcConfig in
  let privateKeySecretArn := PrivateKeySecretArn oidcConfig in
  let spin := IsTerminal w in
  (if IsTerminal w then Infof ("Deleting OIDC configuration '" ++ bucketName ++ "'")
   else mret tt);;
  (if spin then emit (Spinner true) else mret tt);;
  err ← remote_call (remote_result w) (DeleteSecretInSecretsManager privateKeySecretArn);
  match err with
  | Some err =>
      Errorf ("There was a problem deleting private key from secrets manager: " ++ err);;
      os_Exit 1
  | None =>
      err ← remote_call (remote_result w) (DeleteS3Bucket bucketName);
      match err with
      | Some err =>
          Errorf ("There was a problem deleting S3 bucket '" ++ bucketName ++ "': " ++ err);;
          os_Exit 1
      | None =>
          (if spin then emit (Spinner false) else mret tt);;
          (if IsTerminal w then Infof "Deleted OIDC configuration" else mret tt)
      end
  end.

Definition deleteSecretCommand (privateKeySecretArn region : string) : CommandBuilder :=
  AddItem (AddParam Region region)
    (AddItem (AddParam SecretID privateKeySecretArn)
       (SetCommand DeleteSecret NewSecretsManagerCommandBuilder)).

Definition emptyS3BucketCommand (bucketName : string) : CommandBuilder :=
  AddItem (AddParamNoValue Recursive)
    (AddItem (AddValueNoParam ("s3://" ++ bucketName))
       (SetCommand Remove NewS3CommandBuilder)).

Definition deleteS3BucketCommand (bucketName : string) : CommandBuilder :=
  AddItem (AddValueNoParam ("s3://" ++ bucketName))
    (SetCommand RemoveBucket NewS3CommandBuilder).

Definition execute_manual (oidcConfig : OidcConfigInput) : oidc unit :=
  let commands : list string := [] in
  let bucketName := BucketName oidcConfig in
  let privateKeySecretArn := PrivateKeySecretArn oidcConfig in
  argsRegion ← gets (fun s => region (args s));
  let commands := commands ++ [Build w (deleteSecretCommand privateKeySecretArn argsRegion)] in
  let commands := commands ++ [Build w (emptyS3BucketCommand bucketName)] in
  let commands := commands ++ [Build w (deleteS3BucketCommand bucketName)] in
  emit (Println (JoinCommands w commands)).

(** The method [execute] of the interface [DeleteOidcConfigStrategy]. *)
Definition execute (s : DeleteOidcConfigStrategy) : oidc unit :=
  match s with
  | DeleteRedHatHostedOidcConfigAutoStrategy oidcConfig => execute_hosted oidcConfig
  | DeleteOidcConfigAutoStrategy oidcConfig => execute_auto oidcConfig
  | DeleteOidcConfigManualStrategy oidcConfig => execute_manual oidcConfig
  end.

Definition getOidcConfigStrategy (mode : string) (input : OidcConfigInput)
  : oidc (option DeleteOidcConfigStrategy * option error) :=
  gets (fun s => redHatHosted (args s)) ≫= fun hosted : bool =>
  if hosted then
    mret (Some (DeleteRedHatHostedOidcConfigAutoStrategy input), None)
  else if String.eqb mode ModeAuto then
    mret (Some (DeleteOidcConfigAutoStrategy input), None)
  else if String.eqb mode ModeManual then
    mret (Some (DeleteOidcConfigManualStrategy input), None)
  else
    mret (None, Some ("Invalid mode. Allowed values are " ++ format_strings Modes)%string).

Definition zero_ARN : ARN := {| arn_Service := ""; arn_Region := "" |}.

Definition run : oidc unit :=
  NewRuntime w;;
  defer r_Cleanup (
  match GetMode w with
  | inr err => Errorf err;; os_Exit 1
  | inl mode =>
  gets (fun s => redHatHosted (args s)) ≫= fun hosted : bool =>
  if hosted && negb (String.eqb mode ModeAuto) then
    Warnf "--rh-hosted param is not supported outside --mode auto flow.";; os_Exit 1
  else
  (* Get AWS region *)
  match GetRegion w with
  | inr err => Errorf ("Error getting region: " ++ err);; os_Exit 1
  | inl awsRegion =>
  modify (set_region awsRegion);;
  (* Determine if interactive mode is needed *)
  gets interactive_enabled ≫= fun enabled : bool =>
  (if negb enabled && negb (mode_Changed w) then modify interactive_Enable else mret tt);;
  gets interactive_enabled ≫= fun enabled : bool =>
  (if enabled then
     match GetOption w with
     | inr err =>
         Errorf ("Expected a valid OIDC provider creation mode: " ++ err);; os_Exit 1
     | inl mode => mret mode
     end
   else mret mode) ≫= fun mode : string =>
  gets (fun s => oidcPrivateKeySecretArn (args s)) ≫= fun oidcPrivateKeySecretArn : string =>
  (if String.eqb oidcPrivateKeySecretArn "" || enabled then
     match GetString w oidcPrivateKeySecretArn with
     | inr err =>
         Errorf ("Expected a valid ARN to the secret containing the private key: " ++ err);;
         os_Exit 1
     | inl oidcPrivateKeySecretArn =>
         match ARNValidator w oidcPrivateKeySecretArn with
         | Some err => Errorf err;; os_Exit 1
         | None =>
             let parsedSecretArn :=
               match arn_Parse w oidcPrivateKeySecretArn with
               | inl a => a
               | inr _ => zero_ARN
               end in
             if negb (String.eqb (arn_Service parsedSecretArn) secretsManagerService) then
               Errorf "Supplied secret ARN is not a valid Secrets Manager ARN";; os_Exit 1
             else modify (set_oidcPrivateKeySecretArn oidcPrivateKeySecretArn)
         end
     end
   else mret tt);;
  oidcConfigInput ← buildOidcConfigInput;
  getOidcConfigStrategy mode oidcConfigInput ≫= fun r =>
  match r.2 with
  | Some err => Errorf err;; os_Exit 1
  | None =>
      match r.1 with
      | Some oidcConfigStrategy => execute oidcConfigStrategy
      | None => panic
      end;;
      argsRegion ← gets (fun s => region (args s));
      oidcprovider_Run w
        [""; mode;
         "https://" ++ BucketName oidcConfigInput ++ ".s3." ++ argsRegion
           ++ ".amazonaws.com"]%string
  end
  end
  end).

End Command.

(** The remote calls a strategy is to make, in order. *)
Definition planned (st : DeleteOidcConfigStrategy) : list remote :=
  match st with
  | DeleteRedHatHostedOidcConfigAutoStrategy i =>
      [DeleteRedHatHostedOidcConfig; DeleteSecretInSecretsManager (PrivateKeySecretArn i)]
  | DeleteOidcConfigAutoStrategy i =>
      [DeleteSecretInSecretsManager (PrivateKeySecretArn i); DeleteS3Bucket (BucketName i)]
  | DeleteOidcConfigManualStrategy _ => []
  end.

(** The runtime [r] already holds its OCM client, as it does in [run],
    which builds it with [WithOCM]. *)
Definition RuntimeReady (w : World) : Prop :=
  forall s, WithOCM w s = ([], Done tt s).

(** The packages whose code is not at hand follow the error policy. *)
Record WorldPolicy (w : World) : Prop := {
  NewRuntime_policy : FailFast (NewRuntime w);
  WithOCM_policy : FailFast (WithOCM w);
  oidcprovider_policy : forall argv, FailFast (oidcprovider_Run w argv)
}.

(** C1. [getOidcConfigStrategy] always returns, touching nothing: the Red
    Hat hosted strategy when [args.redHatHosted] is set, whatever the mode;
    otherwise the automatic strategy for mode auto, the manual strategy for
    mode manual, and for any other mode no strategy and an error that
    names the allowed modes. *)
Theorem getOidcConfigStrategy_dispatch (mode : string) (input : OidcConfigInput) (s : State) :
  exists r, getOidcConfigStrategy mode input s = ([], Done r s)
  /\ (redHatHosted (args s) = true ->
        r = (Some (DeleteRedHatHostedOidcConfigAutoStrategy input), None))
  /\ (redHatHosted (args s) = false -> mode = "auto"%string ->
        r = (Some (DeleteOidcConfigAutoStrategy input), None))
  /\ (redHatHosted (args s) = false -> mode = "manual"%string ->
        r = (Some (DeleteOidcConfigManualStrategy input), None))
  /\ (redHatHosted (args s) = false -> mode <> "auto"%string -> mode <> "manual"%string ->
        r = (None, Some "Invalid mode. Allowed values are [auto manual]"%string)).
Proof.
  unfold getOidcConfigStrategy, mbind, cmd_bind, gets, mret, cmd_ret. simpl.
  destruct (redHatHosted (args s)) eqn:Hh; simpl.
  { eexists; split; [reflexivity|]. repeat split; intros; congruence. }
  unfold ModeAuto, ModeManual.
  destruct (String.eqb_spec mode "auto") as [->|Hauto]; simpl.
  { eexists; split; [reflexivity|]. repeat split; intros; congruence. }
  destruct (String.eqb_spec mode "manual") as [->|Hmanual]; simpl.
  { eexists; split; [reflexivity|]. repeat split; intros; congruence. }
  eexists; split; [reflexivity|]. repeat split; intros; congruence.
Qed.

Example getOidcConfigStrategy_hosted_manual input :
  getOidcConfigStrategy "manual" input
    {| args := {| oidcPrivateKeySecretArn := ""; region := ""; redHatHosted := true |};
       interactive_enabled := false |}
  = ([], Done (Some (DeleteRedHatHostedOidcConfigAutoStrategy input), None)
       {| args := {| oidcPrivateKeySecretArn := ""; region := ""; redHatHosted := true |};
          interactive_enabled := false |}).
Proof. reflexivity. Qed.






(** Unfolds a strategy down to its trace. *)
Ltac run_strategy Hocm :=
  unfold execute, execute_hosted, execute_auto, execute_manual, remote_call,
    Infof, Errorf, emit, gets, os_Exit, mbind, cmd_bind, mret, cmd_ret;
  try rewrite Hocm; simpl.

Lemma planned_split (st : DeleteOidcConfigStrategy) pre c post :
  planned st = pre ++ c :: post ->
  exists c1 c2, planned st = [c1; c2]
    /\ ((pre = [] /\ c = c1) \/ (pre = [c1] /\ c = c2)).
Proof.
  destruct st as [i|i|i]; simpl; intros H.
  - destruct pre as [|x [|y [|z pre]]]; simplify_eq/=; eauto 10.
  - destruct pre as [|x [|y [|z pre]]]; simplify_eq/=; eauto 10.
  - destruct pre; discriminate.
Qed.

(** C2. Every strategy makes its remote calls in the planned order, at
    most three of them (hosted: the control-plane OIDC configuration, then
    the private-key secret; automatic: the private-key secret, then the S3
    bucket).  When all succeed the strategy returns having made exactly
    those calls; when one fails, the calls made are those before it and
    itself, each once, the failure is reported, and the process exits with
    status 1 right after the report. *)
Theorem execute_calls_in_order (w : World) (st : DeleteOidcConfigStrategy) (s : State) :
  RuntimeReady w ->
  let r := execute w st s in
  (length (planned st) <= 3)%nat
  /\ ((forall c, c ∈ planned st -> remote_result w c = None) ->
        calls r.1 = planned st /\ r.2 = Done tt s /\ failure_free r.1)
  /\ (forall pre c post err,
        planned st = pre ++ c :: post ->
        (forall c', c' ∈ pre -> remote_result w c' = None) ->
        remote_result w c = Some err ->
        calls r.1 = pre ++ [c] /\ r.2 = Exited 1
        /\ exists t msg, r.1 = t ++ [Report Error msg] /\ failure_free t).
Proof.
  intros Hocm r. split; [destruct st; simpl; lia|]. split.
  - intros Hok. subst r.
    destruct st as [i|i|i]; run_strategy Hocm.
    + rewrite !Hok by set_solver.
      destruct (IsTerminal w); simpl; repeat split;
        repeat constructor; simpl; tauto.
    + rewrite !Hok by set_solver.
      destruct (IsTerminal w); simpl; repeat split;
        repeat constructor; simpl; tauto.
    + repeat split. repeat constructor. simpl. tauto.
  - intros pre c post err Hsplit Hpre Herr. subst r.
    destruct (planned_split st pre c post Hsplit) as (c1 & c2 & Hpl & Hcase).
    destruct st as [i|i|i]; simpl in Hpl; simplify_eq/=;
      destruct Hcase as [[-> ->]|[-> ->]]; run_strategy Hocm;
      try (rewrite Hpre by set_solver); rewrite Herr;
      destruct (IsTerminal w); simpl; (split; [reflexivity|]); (split; [reflexivity|]).
    all: first
      [ exists []; eexists; split; [reflexivity|]
      | eexists [_]; eexists; split; [reflexivity|]
      | eexists [_; _]; eexists; split; [reflexivity|]
      | eexists [_; _; _]; eexists; split; [reflexivity|]
      | eexists [_; _; _; _]; eexists; split; [reflexivity|] ];
      repeat constructor; simpl; tauto.
Qed.

Definition quiet_world : World :=
  {| NewRuntime := mret tt;
     WithOCM := mret tt;
     GetMode := inl "auto"%string;
     GetRegion := inl "us-east-1"%string;
     mode_Changed := true;
     GetOption := inl "auto"%string;
     GetString := fun d => inl d;
     ARNValidator := fun _ => None;
     arn_Parse := fun _ =>
       inl {| arn_Service := "secretsmanager"; arn_Region := "us-east-1" |};
     aws_SecretsManager := "secretsmanager";
     GetResourceIdFromSecretArn := fun _ => inl "rosa-private-key-oidc-a1b2-x9"%string;
     has_cluster := fun _ => false;
     remote_result := fun c =>
       match c with
       | DeleteS3Bucket _ => Some "AccessDenied"%string
       | _ => None
       end;
     IsTerminal := true;
     Build := fun b =>
       String.concat " "
         (match service b with SecretsManager => "aws secretsmanager" | S3 => "aws s3" end
          :: match command b with
             | Some DeleteSecret => "delete-secret"
             | Some Remove => "rm"
             | Some RemoveBucket => "rb"
             | None => ""
             end
          :: map (fun i =>
                    let name p :=
                      match p with
                      | SecretID => "--secret-id"
                      | Region => "--region"
                      | Recursive => "--recursive"
                      end in
                    match i with
                    | AddParam p v => name p ++ " " ++ v
                    | AddParamNoValue p => name p
                    | AddValueNoParam v => v
                    end) (params b))%string;
     JoinCommands := String.concat (String "010" (String "010" EmptyString));
     oidcprovider_Run := fun _ => mret tt |}.

Definition sample_state : State :=
  {| args := {| oidcPrivateKeySecretArn := "arn:aws:secretsmanager:us-east-1:1:secret:k";
                region := "us-east-1";
                redHatHosted := false |};
     interactive_enabled := false |}.

Definition sample_input : OidcConfigInput :=
  {| PrivateKeySecretArn := "arn:aws:secretsmanager:us-east-1:1:secret:k";
     BucketName := "oidc-a1b2" |}.

Lemma execute_calls_in_order_witness :
  let st := DeleteOidcConfigAutoStrategy sample_input in
  let r := execute quiet_world st sample_state in
  (length (planned st) <= 3)%nat
  /\ ((forall c, c ∈ planned st -> remote_result quiet_world c = None) ->
        calls r.1 = planned st /\ r.2 = Done tt sample_state /\ failure_free r.1)
  /\ (forall pre c post err,
        planned st = pre ++ c :: post ->
        (forall c', c' ∈ pre -> remote_result quiet_world c' = None) ->
        remote_result quiet_world c = Some err ->
        calls r.1 = pre ++ [c] /\ r.2 = Exited 1
        /\ exists t msg, r.1 = t ++ [Report Error msg] /\ failure_free t).
Proof.
  apply (execute_calls_in_order quiet_world (DeleteOidcConfigAutoStrategy sample_input)).
  intros s. reflexivity.
Defined.

Example execute_auto_bucket_fails :
  execute quiet_world (DeleteOidcConfigAutoStrategy sample_input) sample_state
  = ([Report Info "Deleting OIDC configuration 'oidc-a1b2'";
      Spinner true;
      Call (DeleteSecretInSecretsManager "arn:aws:secretsmanager:us-east-1:1:secret:k");
      Call (DeleteS3Bucket "oidc-a1b2");
      Report Error "There was a problem deleting S3 bucket 'oidc-a1b2': AccessDenied"],
     Exited 1).
Proof. reflexivity. Qed.

(** C5. The manual strategy calls no remote service.  It prints, once, the
    three commands joined by [JoinCommands], in this order: [delete-secret]
    of Secrets Manager with the secret id and the region, the recursive
    removal of the bucket's contents, the removal of the bucket. *)
Theorem execute_manual_prints (w : World) (oidcConfig : OidcConfigInput) (s : State) :
  let r := execute w (DeleteOidcConfigManualStrategy oidcConfig) s in
  let bucket := ("s3://" ++ BucketName oidcConfig)%string in
  r = ([Println (JoinCommands w
          [Build w {| service := SecretsManager; command := Some DeleteSecret;
                      params := [AddParam SecretID (PrivateKeySecretArn oidcConfig);
                                 AddParam Region (region (args s))] |};
           Build w {| service := S3; command := Some Remove;
                      params := [AddValueNoParam bucket; AddParamNoValue Recursive] |};
           Build w {| service := S3; command := Some RemoveBucket;
                      params := [AddValueNoParam bucket] |}])],
       Done tt s)
  /\ calls r.1 = [].
Proof. split; reflexivity. Qed.

Example execute_manual_run :
  (execute quiet_world (DeleteOidcConfigManualStrategy sample_input) sample_state).1
  = [Println
       ("aws secretsmanager delete-secret --secret-id arn:aws:secretsmanager:us-east-1:1:secret:k --region us-east-1"
        ++ String "010" (String "010" EmptyString)
        ++ "aws s3 rm s3://oidc-a1b2 --recursive"
        ++ String "010" (String "010" EmptyString)
        ++ "aws s3 rb s3://oidc-a1b2")%string].
Proof. reflexivity. Qed.

(** *** Further properties of the command *)

(** [s] holds no byte [sep]. *)
Definition no_sep (sep : ascii) (s : string) : Prop :=
  forall a b, s <> (a ++ String sep b)%string.

Lemma no_sep_cons sep c s :
  no_sep sep (String c s) -> c <> sep /\ no_sep sep s.
Proof.
  intros H. split.
  - intros ->. apply (H EmptyString s). reflexivity.
  - intros a b ->. apply (H (String c a) b). reflexivity.
Qed.

Lemma LastIndex_none (s : string) (sep : ascii) : no_sep sep s -> LastIndex s sep = -1.
Proof.
  induction s as [|c s IH]; intros H; simpl; [reflexivity|].
  apply no_sep_cons in H as [Hc Hs]. rewrite IH by exact Hs. simpl.
  destruct (Ascii.eqb_spec c sep); [contradiction|reflexivity].
Qed.

Lemma LastIndex_last (a suf : string) (sep : ascii) :
  no_sep sep suf -> LastIndex (a ++ String sep suf) sep = Z.of_nat (String.length a).
Proof.
  intros Hs. induction a as [|c a IH].
  - change (("" ++ String sep suf)%string) with (String sep suf). simpl.
    rewrite LastIndex_none by exact Hs. simpl. rewrite Ascii.eqb_refl. reflexivity.
  - rewrite Helper.append_cons. simpl LastIndex. rewrite IH.
    destruct (0 <=? Z.of_nat (String.length a)) eqn:Hle; [simpl String.length; lia|].
    apply Z.leb_gt in Hle. lia.
Qed.

Lemma TrimPrefix_app (prefix s : string) : TrimPrefix (prefix ++ s) prefix = s.
Proof.
  unfold TrimPrefix.
  assert (H : TrimPrefix_aux (prefix ++ s) prefix = Some s); [|rewrite H; reflexivity].
  induction prefix as [|c prefix IH].
  - change (("" ++ s)%string) with s. destruct s; reflexivity.
  - rewrite Helper.append_cons. simpl. rewrite Ascii.eqb_refl. exact IH.
Qed.

Lemma slice_to_app (a b : string) :
  slice_to (a ++ b) (Z.of_nat (String.length a)) = a.
Proof. unfold slice_to. rewrite Nat2Z.id. apply Helper.substring_app_l. Qed.

(** X15. When the ARN parses to a Secrets Manager ARN of the chosen region
    and no cluster uses the configuration, [buildOidcConfigInput] takes the
    bucket name from the secret's resource name: the name without the
    prefix [rosa-private-key-] for a Red Hat hosted configuration, and
    otherwise what stands before its last dash as well.  It asks the
    control plane once, about that bucket, and returns it with the ARN. *)
Theorem buildOidcConfigInput_bucket (w : World) (s : State) (parsed : ARN)
    (name suffix : string) :
  arn_Parse w (oidcPrivateKeySecretArn (args s)) = inl parsed ->
  arn_Service parsed = aws_SecretsManager w ->
  arn_Region parsed = region (args s) ->
  GetResourceIdFromSecretArn w (oidcPrivateKeySecretArn (args s))
  = inl (prefixForPrivateKeySecret ++ name ++ String "-" suffix)%string ->
  no_sep "-" suffix ->
  let bucketName :=
    if redHatHosted (args s) then (name ++ String "-" suffix)%string else name in
  remote_result w (HasAClusterUsingOidcConfig bucketName) = None ->
  has_cluster w bucketName = false ->
  buildOidcConfigInput w s
  = ([Call (HasAClusterUsingOidcConfig bucketName)],
     Done {| PrivateKeySecretArn := oidcPrivateKeySecretArn (args s);
             BucketName := bucketName |} s).
Proof.
  intros Hparse Hsvc Hreg Hname Hsuffix bucketName Hcall Hfree.
  unfold buildOidcConfigInput, mbind, cmd_bind, mret, cmd_ret, gets, remote_call, emit.
  simpl. rewrite Hparse, Hsvc, Hreg, !String.eqb_refl. simpl. rewrite Hname.
  rewrite TrimPrefix_app.
  assert (Hb : (if negb (redHatHosted (args s))
                then
                  if negb (LastIndex (name ++ String "-" suffix) "-" =? -1)
                  then slice_to (name ++ String "-" suffix)
                         (LastIndex (name ++ String "-" suffix) "-")
                  else (name ++ String "-" suffix)%string
                else (name ++ String "-" suffix)%string) = bucketName).
  { subst bucketName. rewrite LastIndex_last by exact Hsuffix.
    destruct (redHatHosted (args s)); simpl; [reflexivity|].
    destruct (Z.eqb_spec (Z.of_nat (String.length name)) (-1)); [lia|]. simpl.
    apply slice_to_app. }
  rewrite Hb. simpl. rewrite Hcall, Hfree. reflexivity.
Qed.

(** A test for [no_sep]. *)
Fixpoint has_byte (sep : ascii) (s : string) : bool :=
  match s with
  | EmptyString => false
  | String c s' => Ascii.eqb c sep || has_byte sep s'
  end.

Lemma has_byte_no_sep sep s : has_byte sep s = false -> no_sep sep s.
Proof.
  intros H a. revert s H. induction a as [|c a IH]; intros s H b Heq; subst s.
  - change (has_byte sep (String sep b) = false) in H. simpl in H.
    rewrite Ascii.eqb_refl in H. discriminate.
  - rewrite Helper.append_cons in H. simpl in H.
    apply orb_false_iff in H as [_ H]. apply (IH _ H b). reflexivity.
Qed.

Lemma buildOidcConfigInput_bucket_witness :
  buildOidcConfigInput quiet_world sample_state
  = ([Call (HasAClusterUsingOidcConfig "oidc-a1b2")],
     Done {| PrivateKeySecretArn := oidcPrivateKeySecretArn (args sample_state);
             BucketName := "oidc-a1b2" |} sample_state).
Proof.
  apply (buildOidcConfigInput_bucket quiet_world sample_state
           {| arn_Service := "secretsmanager"; arn_Region := "us-east-1" |}
           "oidc-a1b2" "x9").
  - reflexivity.
  - reflexivity.
  - reflexivity.
  - reflexivity.
  - apply has_byte_no_sep. reflexivity.
  - reflexivity.
  - reflexivity.
Defined.

(** The packages called around the strategy answer at once: the runtime
    is built and holds its OCM client, and deleting the OIDC provider,
    which is another command, makes none of the calls of this one. *)
Record Quiet (w : World) : Prop := {
  NewRuntime_quiet : forall s, NewRuntime w s = ([], Done tt s);
  WithOCM_quiet : RuntimeReady w;
  oidcprovider_quiet : forall argv s, calls (oidcprovider_Run w argv s).1 = []
}.

(** A call that deletes; the bucket it may delete is [bucketName]. *)
Definition deletes (bucketName : string) (c : remote) : Prop :=
  match c with
  | HasAClusterUsingOidcConfig _ => False
  | DeleteRedHatHostedOidcConfig => True
  | DeleteSecretInSecretsManager _ => True
  | DeleteS3Bucket b => b = bucketName
  end.

(** Takes one branch of the run held by [H]. *)
Ltac run_branch Hq H :=
  match type of H with
  | context [NewRuntime ?w ?s] => rewrite (NewRuntime_quiet w Hq s) in H
  | context [WithOCM ?w ?s] => rewrite (WithOCM_quiet w Hq s) in H
  | context [oidcprovider_Run ?w ?argv ?s] =>
      let Hp := fresh "Hprov" in
      pose proof (oidcprovider_quiet w Hq argv s) as Hp;
      destruct (oidcprovider_Run w argv s) as [? ?]; simpl in Hp
  | context [match ?x with _ => _ end] =>
      lazymatch x with
      | context [match _ with _ => _ end] => fail
      | _ => destruct x eqn:?
      end
  end; simpl in H.

(** The shapes the remote calls of a run can take. *)
Definition calls_shape (w : World) (hosted : bool) (cs : list remote) : Prop :=
  cs = []
  \/ exists bucketName,
       cs = [HasAClusterUsingOidcConfig bucketName]
       \/ (remote_result w (HasAClusterUsingOidcConfig bucketName) = None
           /\ has_cluster w bucketName = false
           /\ ((hosted = true
                /\ (cs = [HasAClusterUsingOidcConfig bucketName;
                          DeleteRedHatHostedOidcConfig]
                    \/ exists a,
                         cs = [HasAClusterUsingOidcConfig bucketName;
                               DeleteRedHatHostedOidcConfig;
                               DeleteSecretInSecretsManager a]))
               \/ (hosted = false
                   /\ exists a,
                        cs = [HasAClusterUsingOidcConfig bucketName;
                              DeleteSecretInSecretsManager a]
                        \/ cs = [HasAClusterUsingOidcConfig bucketName;
                                 DeleteSecretInSecretsManager a;
                                 DeleteS3Bucket bucketName]))).

Lemma run_calls_shape (w : World) (s : State) :
  Quiet w -> calls_shape w (redHatHosted (args s)) (calls (run w s).1).
Proof.
  intros Hq. remember (calls (run w s).1) as cs eqn:Hcs.
  unfold run, defer, r_Cleanup, buildOidcConfigInput, getOidcConfigStrategy, execute, execute_hosted,
    execute_auto, execute_manual, remote_call, Infof, Warnf, Errorf, emit, gets, modify,
    os_Exit, panic, mbind, cmd_bind, mret, cmd_ret in Hcs.
  repeat run_branch Hq Hcs.
  all: rewrite ?calls_app in Hcs; simpl in Hcs; rewrite ?Hprov in Hcs; simpl in Hcs;
    subst cs; unfold calls_shape.
  all: first
    [ left; reflexivity
    | right; eexists; left; reflexivity
    | right; eexists; right; split; [eassumption|]; split; [eassumption|];
      first
        [ left; split; [reflexivity|];
          first [left; reflexivity|right; eexists; reflexivity]
        | right; split; [reflexivity|]; eexists;
          first [left; reflexivity|right; reflexivity] ] ].
Qed.

(** X16. Whatever the flags, the answers and the results of the calls,
    the first remote call of [run] asks whether a cluster uses the OIDC
    configuration; a call follows only when the answer came without error
    and was no, and every call that follows deletes, the only bucket it can
    delete being the one asked about. *)
Theorem run_deletes_after_check (w : World) (s : State) :
  Quiet w ->
  calls (run w s).1 = []
  \/ exists bucketName rest,
       calls (run w s).1 = HasAClusterUsingOidcConfig bucketName :: rest
       /\ (rest <> [] ->
             remote_result w (HasAClusterUsingOidcConfig bucketName) = None
             /\ has_cluster w bucketName = false)
       /\ Forall (deletes bucketName) rest.
Proof.
  intros Hq.
  destruct (run_calls_shape w s Hq) as [H|[b [H|(Hok & Hfree & Hrest)]]].
  - left. exact H.
  - right. exists b, []. rewrite H. split; [reflexivity|].
    split; [intros Hne; destruct Hne; reflexivity|constructor].
  - right.
    assert (exists rest, calls (run w s).1 = HasAClusterUsingOidcConfig b :: rest
                         /\ Forall (deletes b) rest) as (rest & Hrun & Hall).
    { destruct Hrest as [[_ [H|[a H]]]|[_ [a [H|H]]]]; rewrite H; eexists;
        (split; [reflexivity|]); repeat (constructor; simpl; auto). }
    exists b, rest. split; [exact Hrun|]. split; [intros _; split; assumption|exact Hall].
Qed.

Lemma quiet_world_Quiet : Quiet quiet_world.
Proof. split; unfold RuntimeReady; intros; reflexivity. Qed.

Lemma run_deletes_after_check_witness :
  calls (run quiet_world sample_state).1 = []
  \/ exists bucketName rest,
       calls (run quiet_world sample_state).1
       = HasAClusterUsingOidcConfig bucketName :: rest
       /\ (rest <> [] ->
             remote_result quiet_world (HasAClusterUsingOidcConfig bucketName) = None
             /\ has_cluster quiet_world bucketName = false)
       /\ Forall (deletes bucketName) rest.
Proof. apply run_deletes_after_check, quiet_world_Quiet. Defined.

(** X17. With [--rh-hosted], [run] never deletes an S3 bucket, whatever
    mode is chosen at the prompt; without it, [run] never deletes the Red
    Hat hosted configuration. *)
Theorem run_hosted_or_bucket (w : World) (s : State) :
  Quiet w ->
  (redHatHosted (args s) = true ->
     forall b, DeleteS3Bucket b ∉ calls (run w s).1)
  /\ (redHatHosted (args s) = false ->
       DeleteRedHatHostedOidcConfig ∉ calls (run w s).1).
Proof.
  intros Hq.
  assert (Hin3 : forall (c x y z : remote), c <> x -> c <> y -> c <> z -> c ∉ [x; y; z]).
  { intros c x y z Hx Hy Hz Hin. repeat (apply elem_of_cons in Hin as [Hin|Hin]; [congruence|]).
    apply elem_of_nil in Hin. exact Hin. }
  assert (Hin2 : forall (c x y : remote), c <> x -> c <> y -> c ∉ [x; y]).
  { intros c x y Hx Hy Hin. repeat (apply elem_of_cons in Hin as [Hin|Hin]; [congruence|]).
    apply elem_of_nil in Hin. exact Hin. }
  assert (Hin1 : forall (c x : remote), c <> x -> c ∉ [x]).
  { intros c x Hx Hin. apply elem_of_cons in Hin as [Hin|Hin]; [congruence|].
    apply elem_of_nil in Hin. exact Hin. }
  destruct (run_calls_shape w s Hq)
    as [H|[b [H|(Hok & Hfree & [[Hh [H|[a H]]]|[Hh [a [H|H]]]])]]];
    rewrite H; (split; [intros Hflag b'|intros Hflag]); try congruence;
    first [apply not_elem_of_nil|apply Hin1|apply Hin2|apply Hin3]; discriminate.
Qed.

Lemma run_hosted_or_bucket_witness :
  (redHatHosted (args sample_state) = true ->
     forall b, DeleteS3Bucket b ∉ calls (run quiet_world sample_state).1)
  /\ (redHatHosted (args sample_state) = false ->
       DeleteRedHatHostedOidcConfig ∉ calls (run quiet_world sample_state).1).
Proof. apply run_hosted_or_bucket, quiet_world_Quiet. Defined.

(** X18. [--rh-hosted] with a mode other than auto is refused before
    anything else is asked or done: [run] prints the warning and ends
    with status 1. *)
Theorem run_refuses_hosted_mode (w : World) (s : State) (mode : string) :
  (forall s, NewRuntime w s = ([], Done tt s)) ->
  GetMode w = inl mode ->
  redHatHosted (args s) = true ->
  mode <> "auto"%string ->
  run w s
  = ([Report Warn "--rh-hosted param is not supported outside --mode auto flow."],
     Exited 1).
Proof.
  intros Hnew Hmode Hhosted Hne.
  unfold run, defer, r_Cleanup, mbind, cmd_bind, gets, Warnf, emit, os_Exit.
  rewrite Hnew, Hmode. simpl. rewrite Hhosted. unfold ModeAuto.
  destruct (String.eqb_spec mode "auto"); [contradiction|]. reflexivity.
Qed.

Lemma run_refuses_hosted_mode_witness :
  run {| NewRuntime := mret tt; WithOCM := WithOCM quiet_world;
         GetMode := inl "manual"%string; GetRegion := GetRegion quiet_world;
         mode_Changed := true; GetOption := GetOption quiet_world;
         GetString := GetString quiet_world; ARNValidator := ARNValidator quiet_world;
         arn_Parse := arn_Parse quiet_world;
         aws_SecretsManager := aws_SecretsManager quiet_world;
         GetResourceIdFromSecretArn := GetResourceIdFromSecretArn quiet_world;
         has_cluster := has_cluster quiet_world;
         remote_result := remote_result quiet_world;
         IsTerminal := true; Build := Build quiet_world;
         JoinCommands := JoinCommands quiet_world;
         oidcprovider_Run := oidcprovider_Run quiet_world |}
      {| args := {| oidcPrivateKeySecretArn := ""; region := ""; redHatHosted := true |};
         interactive_enabled := false |}
  = ([Report Warn "--rh-hosted param is not supported outside --mode auto flow."],
     Exited 1).
Proof.
  apply (run_refuses_hosted_mode _ _ "manual").
  - reflexivity.
  - reflexivity.
  - reflexivity.
  - discriminate.
Defined.

(** X19. When the region of the secret's ARN is not the chosen region,
    [buildOidcConfigInput] reports both regions and ends the process with
    status 1 before any remote call is made. *)
Theorem buildOidcConfigInput_region_differs (w : World) (s : State) (parsed : ARN) :
  arn_Parse w (oidcPrivateKeySecretArn (args s)) = inl parsed ->
  arn_Service parsed = aws_SecretsManager w ->
  arn_Region parsed <> region (args s) ->
  buildOidcConfigInput w s
  = ([Report Error
        ("Secret region '" ++ arn_Region parsed ++ "' differs from chosen region '"
         ++ region (args s) ++ "', please run the command supplying region parameter.")],
     Exited 1).
Proof.
  intros Hparse Hsvc Hreg.
  unfold buildOidcConfigInput, mbind, cmd_bind, gets, Errorf, emit, os_Exit.
  simpl. rewrite Hparse, Hsvc, String.eqb_refl. simpl.
  destruct (String.eqb_spec (region (args s)) (arn_Region parsed)); [congruence|].
  reflexivity.
Qed.

Definition other_region_state : State :=
  {| args := {| oidcPrivateKeySecretArn := "arn:aws:secretsmanager:us-east-1:1:secret:k";
                region := "eu-west-1"; redHatHosted := false |};
     interactive_enabled := false |}.

Lemma buildOidcConfigInput_region_differs_witness :
  buildOidcConfigInput quiet_world other_region_state
  = ([Report Error
        ("Secret region '" ++ "us-east-1" ++ "' differs from chosen region '"
         ++ "eu-west-1" ++ "', please run the command supplying region parameter.")],
     Exited 1).
Proof.
  apply (buildOidcConfigInput_region_differs quiet_world other_region_state
           {| arn_Service := "secretsmanager"; arn_Region := "us-east-1" |}).
  - reflexivity.
  - reflexivity.
  - discriminate.
Defined.

End OidcConfig.

(** ** [pkg/interactive/validation.go] *)
Module Interactive.

(** [core.OptionAnswer] *)
Record OptionAnswer := {
  answer_Value : string;
  answer_Index : Z
}.

(** A value of type [interface{}], by its dynamic type; [VOther] stands
    for a value of any further type and carries how [%v] prints it. *)
Inductive value :=
  | VNil
  | VString (s : string)
  | VBool (b : bool)
  | VInt (n : Z)
  | VOptionAnswers (answers : list OptionAnswer)
  | VOther (printed : string).

(** The type assertions [val.(string)], [val.(bool)] and
    [input.([]core.OptionAnswer)] succeed on these values only. *)
Definition is_string (v : value) : Prop := exists s, v = VString s.
Definition is_bool (v : value) : Prop := exists b, v = VBool b.
Definition is_answers (v : value) : Prop := exists l, v = VOptionAnswers l.

(** The libraries the validators call: [net/url], [net], [regexp], [os],
    [fmt] and the [ocm] package. *)
Record Lib := {
  regex : Type;
  ParseRequestURI : string -> option error;
  ParseCIDR : string -> option error;
  regexp_Compile : string -> regex + error;
  re_MatchString : regex -> string -> bool;
  re_String : regex -> string;
  Stat_IsNotExist : string -> bool;
  Sprint : value -> string;
  ValidateSubnetsCount : bool -> bool -> Z -> option error;
  ValidateAvailabilityZonesCount : bool -> Z -> option error
}.

(** The string made of two double quotes. *)
Definition doubleQuotesToRemove : string :=
  String (ascii_of_nat 34) (String (ascii_of_nat 34) EmptyString).

Definition Validator : Type := value -> option error.

Section Validators.
Variable lib : Lib.

(** [fmt.Sprintf("%v", val)]: a string prints as itself. *)
Definition Sprintf_v (val : value) : string :=
  match val with
  | VString s => s
  | _ => Sprint lib val
  end.

(** [regexp.MatchString(pattern, s)] *)
Definition regexp_MatchString (pattern s : string) : bool * option error :=
  match regexp_Compile lib pattern with
  | inr err => (false, Some err)
  | inl re => (re_MatchString lib re s, None)
  end.

(** IsURL validates whether the given value is a valid URL *)
Definition IsURL (val : value) : option error :=
  match val with
  | VNil => None
  | VString s =>
      if String.eqb s "" then None
      else ParseRequestURI lib (Sprintf_v val)
  | _ => Some ("can only validate strings, got " ++ Sprintf_v val)%string
  end.

(** IsCert validates whether the given filepath is a valid cert file *)
Definition IsCert (filepath : value) : option error :=
  match filepath with
  | VNil => None
  | VString s =>
      if String.eqb s "" then None
      else if String.eqb s doubleQuotesToRemove then None
      else
        let '(validExtension, err) :=
          regexp_MatchString "\.(pem|ca-bundle|ce?rt?|key)$" s in
        match err with
        | Some err => Some err
        | None =>
            if negb validExtension then
              Some ("file '" ++ s ++ "' does not have a valid file extension")%string
            else if negb (Stat_IsNotExist lib s) then None
            else Some ("file '" ++ s ++ "' does not exist on the file system")%string
        end
  | _ => Some ("can only validate strings, got " ++ Sprintf_v filepath)%string
  end.

Definition IsCIDR (val : value) : option error :=
  match val with
  | VString s =>
      match ParseCIDR lib s with
      | Some err => Some err
      | None => None
      end
  | _ => Some ("can only validate strings, got " ++ Sprintf_v val)%string
  end.

(** [regexp.MustCompile] panics on a pattern that does not compile: [None]. *)
Definition RegExp (restr : string) : option Validator :=
  match regexp_Compile lib restr with
  | inr _ => None
  | inl re =>
      Some (fun val =>
        match val with
        | VString str =>
            if String.eqb str "" then None
            else if negb (re_MatchString lib re str) then
              Some (str ++ " does not match regular expression " ++ re_String lib re)%string
            else None
        | _ => Some ("can only validate strings, got " ++ Sprintf_v val)%string
        end)
  end.

Definition RegExpBoolean (restr : string) : option Validator :=
  match regexp_Compile lib restr with
  | inr _ => None
  | inl re =>
      Some (fun val =>
        match val with
        | VBool boolVal =>
            let val : string := if boolVal then "true" else "false" in
            if negb (re_MatchString lib re val) then
              Some (val ++ " does not match regular expression " ++ re_String lib re)%string
            else None
        | _ => Some ("can only validate boolean values, got " ++ Sprintf_v val)%string
        end)
  end.

Definition SubnetsCountValidator (multiAZ privateLink : bool) : Validator :=
  fun input =>
    match input with
    | VOptionAnswers answers =>
        ValidateSubnetsCount lib multiAZ privateLink (Z.of_nat (length answers))
    | _ => Some ("can only validate a slice of string, got " ++ Sprintf_v input)%string
    end.

Definition AvailabilityZonesCountValidator (multiAZ : bool) : Validator :=
  fun input =>
    match input with
    | VOptionAnswers answers =>
        ValidateAvailabilityZonesCount lib multiAZ (Z.of_nat (length answers))
    | _ => Some ("can only validate a slice of string, got " ++ Sprintf_v input)%string
    end.

End Validators.

(** On [nil], which has no dynamic type at all, [IsCert] reports no
    error, whatever the libraries do. *)
Lemma IsCert_accepts_nil :
  ~ is_string VNil /\ forall lib, IsCert lib VNil = None.
Proof. split; [intros [s [=]]|reflexivity]. Qed.

(** C6 (amended). Every validator rejects each value other than [nil] that
    is not of its expected dynamic type.  On [nil], [IsURL] and [IsCert]
    report no error while [IsCIDR] and the regular-expression and count
    validators do.  [IsURL] accepts the empty string and any other string
    exactly when [url.ParseRequestURI] does; [IsCIDR] hands every string,
    the empty one too, to [net.ParseCIDR] and fails exactly when that
    fails. *)
Theorem validators_by_type (lib : Lib) :
  (forall v, v <> VNil -> ~ is_string v ->
     is_Some (IsURL lib v) /\ is_Some (IsCert lib v) /\ is_Some (IsCIDR lib v)
     /\ forall restr f, RegExp lib restr = Some f -> is_Some (f v))
  /\ (forall v, ~ is_bool v ->
        forall restr f, RegExpBoolean lib restr = Some f -> is_Some (f v))
  /\ (forall v, ~ is_answers v ->
        forall multiAZ privateLink,
          is_Some (SubnetsCountValidator lib multiAZ privateLink v)
          /\ is_Some (AvailabilityZonesCountValidator lib multiAZ v))
  /\ (IsURL lib VNil = None /\ IsCert lib VNil = None /\ is_Some (IsCIDR lib VNil)
      /\ forall restr f, RegExp lib restr = Some f -> is_Some (f VNil))
  /\ IsURL lib (VString "") = None
  /\ (forall s, s <> ""%string -> IsURL lib (VString s) = ParseRequestURI lib s)
  /\ (forall s, IsCIDR lib (VString s) = ParseCIDR lib s).
Proof.
  assert (Hstr : forall v, ~ is_string v -> forall s, v <> VString s).
  { intros v Hv s ->. apply Hv. eexists; reflexivity. }
  split; [|split; [|split; [|split; [|split; [|split]]]]].
  - intros v Hnil Hv. pose proof (Hstr v Hv) as Hne.
    destruct v as [|s| | | |]; try contradiction; try (destruct (Hne s eq_refl));
      (repeat split; simpl; eauto);
      intros restr f; unfold RegExp;
      (destruct (regexp_Compile lib restr); [|discriminate]);
      intros [= <-]; simpl; eauto.
  - intros v Hv restr f. unfold RegExpBoolean.
    destruct (regexp_Compile lib restr); [|discriminate].
    intros [= <-]. destruct v; simpl; eauto. destruct Hv. eexists; reflexivity.
  - intros v Hv multiAZ privateLink.
    destruct v; simpl; eauto. destruct Hv. eexists; reflexivity.
  - repeat split; simpl; eauto.
    intros restr f. unfold RegExp. destruct (regexp_Compile lib restr); [|discriminate].
    intros [= <-]. simpl. eauto.
  - reflexivity.
  - intros s Hs. simpl. destruct (String.eqb_spec s ""); [contradiction|reflexivity].
  - intros s. simpl. destruct (ParseCIDR lib s); reflexivity.
Qed.

(** X9. On a string, [IsCert] reports no error in three cases only: the
    empty string, the string of two double quotes, and a path that has one
    of the certificate extensions and for which [os.Stat] does not answer
    that the file does not exist. *)
Theorem IsCert_accepts (lib : Lib) (s : string) :
  IsCert lib (VString s) = None
  <-> s = EmptyString
      \/ s = doubleQuotesToRemove
      \/ exists re, regexp_Compile lib "\.(pem|ca-bundle|ce?rt?|key)$" = inl re
           /\ re_MatchString lib re s = true
           /\ Stat_IsNotExist lib s = false.
Proof.
  simpl. unfold regexp_MatchString.
  destruct (String.eqb_spec s "") as [->|Hne]; [split; auto|].
  destruct (String.eqb_spec s doubleQuotesToRemove) as [->|Hnq]; [split; auto|].
  destruct (regexp_Compile lib "\.(pem|ca-bundle|ce?rt?|key)$") as [re|err].
  - destruct (re_MatchString lib re s) eqn:Hm; simpl.
    + destruct (Stat_IsNotExist lib s) eqn:Hst; simpl.
      * split; [discriminate|]. intros [?|[?|(re' & [= <-] & _ & Hf)]]; congruence.
      * split; [|reflexivity]. intros _. right. right. exists re. auto.
    + split; [discriminate|]. intros [?|[?|(re' & [= <-] & Hf & _)]]; congruence.
  - split; [discriminate|]. intros [?|[?|(re' & [=] & _)]]; congruence.
Qed.

(** X10. A validator made by [RegExp] accepts the empty string whatever
    the pattern is, and any other string exactly when the pattern matches
    it; one made by [RegExpBoolean] accepts a boolean exactly when the
    pattern matches its spelling, [true] or [false].  Both constructors
    panic exactly on a pattern that does not compile. *)
Theorem RegExp_accepts (lib : Lib) (restr : string) :
  match regexp_Compile lib restr with
  | inr _ => RegExp lib restr = None /\ RegExpBoolean lib restr = None
  | inl re =>
      exists f g, RegExp lib restr = Some f /\ RegExpBoolean lib restr = Some g
        /\ f (VString "") = None
        /\ (forall str, str <> EmptyString ->
              (f (VString str) = None <-> re_MatchString lib re str = true))
        /\ (forall b : bool,
              g (VBool b) = None
              <-> re_MatchString lib re (if b then "true" else "false") = true)
  end.
Proof.
  unfold RegExp, RegExpBoolean. destruct (regexp_Compile lib restr) as [re|err]; [|auto].
  eexists _, _. split; [reflexivity|]. split; [reflexivity|]. split; [reflexivity|].
  split.
  - intros str Hne. simpl. destruct (String.eqb_spec str ""); [contradiction|].
    destruct (re_MatchString lib re str); simpl; split; intros H;
      first [reflexivity|discriminate].
  - intros b. simpl.
    destruct (re_MatchString lib re (if b then "true" else "false"));
      simpl; split; intros H; first [reflexivity|discriminate].
Qed.

End Interactive.

(** ** More of [strings]: splitting at a one-byte separator *)

(** [strings.Contains(s, sep)] *)
Fixpoint Contains (s : string) (sep : ascii) : bool :=
  match s with
  | EmptyString => false
  | String c s' => if Ascii.eqb c sep then true else Contains s' sep
  end.

(** [strings.Split(s, sep)]: the pieces of [s] between the separators; the
    empty string gives one empty piece. *)
Fixpoint Split (s : string) (sep : ascii) : list string :=
  match s with
  | EmptyString => [EmptyString]
  | String c s' =>
      if Ascii.eqb c sep then EmptyString :: Split s' sep
      else
        match Split s' sep with
        | piece :: pieces => String c piece :: pieces
        | [] => [String c EmptyString]
        end
  end.

(** The text before the first [sep] (all of [s] when there is none) and
    the text after it. *)
Fixpoint before (sep : ascii) (s : string) : string :=
  match s with
  | EmptyString => EmptyString
  | String c s' => if Ascii.eqb c sep then EmptyString else String c (before sep s')
  end.

Fixpoint after (sep : ascii) (s : string) : string :=
  match s with
  | EmptyString => EmptyString
  | String c s' => if Ascii.eqb c sep then s' else after sep s'
  end.

(** [strings.TrimSpace] on strings whose white space is ASCII: tab, line
    feed, vertical tab, form feed, carriage return and space. *)
Definition is_ascii_space (c : ascii) : bool :=
  let n := N_of_ascii c in
  ((9 <=? n)%N && (n <=? 13)%N) || (n =? 32)%N.

Fixpoint trim_left (s : string) : string :=
  match s with
  | EmptyString => EmptyString
  | String c s' => if is_ascii_space c then trim_left s' else s
  end.

Fixpoint trim_right (s : string) : string :=
  match s with
  | EmptyString => EmptyString
  | String c s' =>
      match trim_right s' with
      | EmptyString => if is_ascii_space c then EmptyString else String c EmptyString
      | rest => String c rest
      end
  end.

Definition TrimSpace_ascii (s : string) : string := trim_right (trim_left s).

Lemma Split_before_after (s : string) (sep : ascii) :
  Split s sep
  = before sep s :: (if Contains s sep then Split (after sep s) sep else []).
Proof.
  induction s as [|c s IH]; simpl; [reflexivity|].
  destruct (Ascii.eqb c sep); [reflexivity|].
  rewrite IH. reflexivity.
Qed.

(** ** The [create ingress] command *)
Module Ingress.

(** The result of [getRouteSelector]: the map, [None] for [nil], and the
    error. *)
Definition selectors : Type := option (gmap string string) * option error.

Section RouteSelector.
Variable TrimSpace : string -> string.

(** The body of the [range] over the items; an index out of range would
    panic, which is the outer [None]. *)
Fixpoint getRouteSelector_loop (items : list string) (routeSelectors : gmap string string)
  : option selectors :=
  match items with
  | [] => Some (Some routeSelectors, None)
  | labelMatch :: items' =>
      if negb (Contains labelMatch "=") then
        Some (None, Some "Expected key=value format for label-match"%string)
      else
        let tokens := Split labelMatch "=" in
        match tokens !! 0%nat, tokens !! 1%nat with
        | Some token0, Some token1 =>
            getRouteSelector_loop items'
              (<[TrimSpace token0 := TrimSpace token1]> routeSelectors)
        | _, _ => None
        end
  end.

Definition getRouteSelector (labelMatch : string) : option selectors :=
  let routeSelectors : gmap string string := ∅ in
  if String.eqb labelMatch "" then Some (Some routeSelectors, None)
  else getRouteSelector_loop (Split labelMatch ",") routeSelectors.

(** An item's key, the trimmed text before the first [=], and its value,
    the trimmed text between the first [=] and the second. *)
Definition item_key (item : string) : string := TrimSpace (before "=" item).
Definition item_value (item : string) : string :=
  TrimSpace (before "=" (after "=" item)).

(** [k] is bound to [v] by the last item of [items] whose key is [k]. *)
Definition last_binding (items : list string) (k v : string) : Prop :=
  exists pre item post,
    items = pre ++ item :: post /\ item_key item = k /\ item_value item = v
    /\ forall item', item' ∈ post -> item_key item' <> k.

Lemma getRouteSelector_loop_error items : forall routeSelectors,
  (exists item, item ∈ items /\ Contains item "=" = false) ->
  getRouteSelector_loop items routeSelectors
  = Some (None, Some "Expected key=value format for label-match"%string).
Proof.
  induction items as [|x items IH]; intros m [item [Hin Hno]]; [set_solver|].
  simpl. destruct (Contains x "=") eqn:Hx; simpl; [|reflexivity].
  rewrite Split_before_after, Hx, Split_before_after. simpl.
  apply IH. exists item. split; [|exact Hno].
  apply elem_of_cons in Hin as [->|Hin]; [congruence|exact Hin].
Qed.

Lemma getRouteSelector_loop_ok items : forall routeSelectors,
  (forall item, item ∈ items -> Contains item "=" = true) ->
  exists m, getRouteSelector_loop items routeSelectors = Some (Some m, None)
    /\ forall k v, m !! k = Some v <->
         last_binding items k v
         \/ (routeSelectors !! k = Some v /\ forall item, item ∈ items -> item_key item <> k).
Proof.
  induction items as [|x items IH]; intros m0 Hall.
  - exists m0. split; [reflexivity|]. intros k v. split.
    + intros H. right. split; [exact H|]. intros item Hin. set_solver.
    + intros [(pre & item & post & H & _)|[H _]]; [|exact H].
      destruct pre; discriminate.
  - simpl. rewrite (Hall x) by set_solver. simpl.
    rewrite Split_before_after, (Hall x) by set_solver.
    rewrite Split_before_after. simpl.
    destruct (IH (<[TrimSpace (before "=" x) := TrimSpace (before "=" (after "=" x))]> m0))
      as (m & -> & Hm); [intros; apply Hall; set_solver|].
    exists m. split; [reflexivity|]. intros k v. rewrite Hm. clear Hm IH. split.
    + intros [(pre & item & post & -> & Hk & Hv & Hpost)|[Hins Hnone]].
      * left. exists (x :: pre), item, post. auto.
      * destruct (decide (item_key x = k)) as [Heq|Hne].
        -- left. exists [], x, items. unfold item_key in Heq.
           rewrite Heq, lookup_insert_eq in Hins. injection Hins as <-.
           repeat split; auto.
        -- right. unfold item_key in Hne. rewrite lookup_insert_ne in Hins by exact Hne.
           split; [exact Hins|]. intros item Hin.
           apply elem_of_cons in Hin as [->|Hin]; [exact Hne|auto].
    + intros [(pre & item & post & Heq & Hk & Hv & Hpost)|[Hm0 Hnone]].
      * destruct pre as [|y pre]; simpl in Heq; injection Heq as -> ->.
        -- right. unfold item_key, item_value in *. rewrite Hk, Hv, lookup_insert_eq.
           split; [reflexivity|exact Hpost].
        -- left. exists pre, item, post. auto.
      * right. split.
        -- rewrite lookup_insert_ne; [exact Hm0|]. apply (Hnone x). set_solver.
        -- intros item Hin. apply Hnone. set_solver.
Qed.

(** C8 (amended). [getRouteSelector] never panics.  On the empty string
    it returns an empty map that is not [nil] and no error.  On any other
    input it returns a [nil] map and an error exactly when some
    comma-separated item has no [=]; otherwise it returns, with no error,
    the map that binds each item key to the value of the last item with
    that key, and binds nothing else. *)
Theorem getRouteSelector_spec (labelMatch : string) :
  let items := Split labelMatch "," in
  (labelMatch = EmptyString -> getRouteSelector labelMatch = Some (Some ∅, None))
  /\ (labelMatch <> EmptyString ->
      (exists item, item ∈ items /\ Contains item "=" = false) ->
      getRouteSelector labelMatch
      = Some (None, Some "Expected key=value format for label-match"%string))
  /\ (labelMatch <> EmptyString ->
      (forall item, item ∈ items -> Contains item "=" = true) ->
      exists m, getRouteSelector labelMatch = Some (Some m, None)
        /\ forall k v, m !! k = Some v <-> last_binding items k v).
Proof.
  intros items. unfold getRouteSelector. repeat split.
  - intros ->. reflexivity.
  - intros Hne Hbad. destruct (String.eqb_spec labelMatch ""); [contradiction|].
    apply getRouteSelector_loop_error, Hbad.
  - intros Hne Hall. destruct (String.eqb_spec labelMatch ""); [contradiction|].
    destruct (getRouteSelector_loop_ok items ∅ Hall) as (m & Hm & Hlookup).
    exists m. split; [exact Hm|]. intros k v. rewrite Hlookup. split; [|auto].
    intros [H|[H _]]; [exact H|]. rewrite lookup_empty in H. discriminate.
Qed.

End RouteSelector.

(** Two items with one key: the map sends the key of the first item to
    the value of the second, not to its own. *)
Lemma getRouteSelector_duplicate_key :
  exists m item,
    getRouteSelector TrimSpace_ascii "a=1,a=2" = Some (Some m, None)
    /\ item ∈ Split "a=1,a=2" ","
    /\ m !! item_key TrimSpace_ascii item <> Some (item_value TrimSpace_ascii item).
Proof.
  exists {[ "a"%string := "2"%string ]}, "a=1"%string.
  split; [vm_compute; reflexivity|]. split; [set_solver|].
  vm_compute. discriminate.
Qed.

Lemma getRouteSelector_spec_witness :
  exists m,
    getRouteSelector TrimSpace_ascii " foo = bar ,bar=baz=qux" = Some (Some m, None)
    /\ forall k v, m !! k = Some v <->
         last_binding TrimSpace_ascii (Split " foo = bar ,bar=baz=qux" ",") k v.
Proof.
  apply (getRouteSelector_spec TrimSpace_ascii " foo = bar ,bar=baz=qux").
  - discriminate.
  - intros item Hin. vm_compute in Hin.
    apply elem_of_cons in Hin as [->|Hin]; [reflexivity|].
    apply elem_of_cons in Hin as [->|Hin]; [reflexivity|].
    apply elem_of_nil in Hin. destruct Hin.
Defined.

Example getRouteSelector_run :
  getRouteSelector TrimSpace_ascii " foo = bar ,bar=baz=qux"
  = Some (Some (<["bar"%string := "baz"%string]> {[ "foo"%string := "bar"%string ]}), None).
Proof. vm_compute. reflexivity. Qed.

Example getRouteSelector_no_equals :
  getRouteSelector TrimSpace_ascii "foo=bar,baz"
  = Some (None, Some "Expected key=value format for label-match"%string).
Proof. vm_compute. reflexivity. Qed.

(** *** [run] *)

(** The package variable [args]. *)
Record Args := {
  private : bool;
  labelMatch : string;
  nlb : bool
}.

Record State := {
  args : Args;
  interactive_enabled : bool
}.

Inductive ClusterState := ClusterStateReady | ClusterStateOther (name : string).

(** What the command reads of a [cmv1.Cluster]. *)
Record Cluster := {
  cluster_ID : string;
  cluster_PrivateLink : bool;
  cluster_State : ClusterState
}.

Inductive ListeningMethod := ListeningMethodInternal | ListeningMethodExternal.
Inductive LoadBalancerFlavor := NetworkLoadBalancer | ClassicLoadBalancer.

(** [cmv1.IngressBuilder], by the fields the command sets. *)
Record IngressBuilder := {
  ingress_Listening : option ListeningMethod;
  ingress_LoadBalancerType : option LoadBalancerFlavor;
  ingress_RouteSelectors : option (gmap string string)
}.

Definition NewIngress : IngressBuilder :=
  {| ingress_Listening := None; ingress_LoadBalancerType := None;
     ingress_RouteSelectors := None |}.
Definition Listening (v : ListeningMethod) (b : IngressBuilder) : IngressBuilder :=
  {| ingress_Listening := Some v; ingress_LoadBalancerType := ingress_LoadBalancerType b;
     ingress_RouteSelectors := ingress_RouteSelectors b |}.
Definition LoadBalancerType (v : LoadBalancerFlavor) (b : IngressBuilder) : IngressBuilder :=
  {| ingress_Listening := ingress_Listening b; ingress_LoadBalancerType := Some v;
     ingress_RouteSelectors := ingress_RouteSelectors b |}.
Definition RouteSelectors (v : gmap string string) (b : IngressBuilder) : IngressBuilder :=
  {| ingress_Listening := ingress_Listening b;
     ingress_LoadBalancerType := ingress_LoadBalancerType b;
     ingress_RouteSelectors := Some v |}.

(** The one remote call of [run] itself; the ingress is given by what the
    builder holds. *)
Inductive remote :=
  | CreateIngress (clusterID : string) (ingress : IngressBuilder).

Abbreviation ingress := (cmd State remote).

(** The prompts take the default answer and, for the label match, the
    validators the answer has to pass. *)
Record World := {
  TrimSpace : string -> string;
  Sprint : Interactive.value -> string;
  NewRuntime : ingress unit;
  GetClusterKey : ingress string;
  GetString : string -> list Interactive.Validator -> string + error;
  FetchCluster : ingress Cluster;
  GetBool_private : bool -> bool + error;
  GetBool_nlb : bool -> bool + error;
  Build : IngressBuilder -> option error;
  remote_result : remote -> option error
}.

(** [len(m)] is 0 for a [nil] map. *)
Definition len_map (m : option (gmap string string)) : nat :=
  match m with
  | Some m => size m
  | None => 0
  end.

Section Command.
Variable w : World.

(** A panic of [getRouteSelector] would pass through the validator; the
    model shows it as an error, and [getRouteSelector_returns] that there
    is none. *)
Definition labelValidator (val : Interactive.value) : option error :=
  match val with
  | Interactive.VString labelMatch =>
      match getRouteSelector (TrimSpace w) labelMatch with
      | None => Some "panic: runtime error: index out of range"%string
      | Some (_, Some err) => Some err
      | Some (_, None) => None
      end
  | _ => Some ("can only validate strings, got " ++ Sprint w val)%string
  end.

Definition run : ingress unit :=
  NewRuntime w;;
  defer r_Cleanup (
  clusterKey ← GetClusterKey w;
  gets (fun s => labelMatch (args s)) ≫= fun labelMatch : string =>
  gets interactive_enabled ≫= fun enabled : bool =>
  (if enabled then
     match GetString w labelMatch [labelValidator] with
     | inr err =>
         Errorf ("Expected a valid comma-separated list of attributes: " ++ err);;
         os_Exit 1
     | inl labelMatch => mret labelMatch
     end
   else mret labelMatch) ≫= fun labelMatch : string =>
  match getRouteSelector (TrimSpace w) labelMatch with
  | None => panic
  | Some (_, Some err) => Errorf err;; os_Exit 1
  | Some (routeSelectors, None) =>
  cluster ← FetchCluster w;
  if cluster_PrivateLink cluster then
    Errorf ("Cluster '" ++ clusterKey
            ++ "' is PrivateLink and does not support creating new ingresses");;
    os_Exit 1
  else
  match cluster_State cluster with
  | ClusterStateOther _ => Errorf ("Cluster '" ++ clusterKey ++ "' is not yet ready");; os_Exit 1
  | ClusterStateReady =>
  let ingressBuilder := NewIngress in
  gets (fun s => private (args s)) ≫= fun private : bool =>
  (if enabled then
     match GetBool_private w private with
     | inr err => Errorf ("Expected a valid private value: " ++ err);; os_Exit 1
     | inl private => mret private
     end
   else mret private) ≫= fun private : bool =>
  gets (fun s => nlb (args s)) ≫= fun nlb : bool =>
  (if enabled then
     match GetBool_nlb w nlb with
     | inr err => Errorf ("Expected a valid nlb value: " ++ err);; os_Exit 1
     | inl nlb => mret nlb
     end
   else mret nlb) ≫= fun nlb : bool =>
  let ingressBuilder :=
    if private then Listening ListeningMethodInternal ingressBuilder
    else Listening ListeningMethodExternal ingressBuilder in
  let ingressBuilder :=
    if nlb then LoadBalancerType NetworkLoadBalancer ingressBuilder
    else LoadBalancerType ClassicLoadBalancer ingressBuilder in
  let ingressBuilder :=
    if (0 <? len_map routeSelectors)%nat then
      RouteSelectors (default ∅ routeSelectors) ingressBuilder
    else ingressBuilder in
  match Build w ingressBuilder with
  | Some err =>
      Errorf ("Failed to create ingress for cluster '" ++ clusterKey ++ "': " ++ err);;
      os_Exit 1
  | None =>
      err ← remote_call (remote_result w) (CreateIngress (cluster_ID cluster) ingressBuilder);
      match err with
      | Some err =>
          Errorf ("Failed to add ingress to cluster '" ++ clusterKey ++ "': " ++ err);;
          os_Exit 1
      | None =>
          Infof ("Ingress has been created on cluster '" ++ clusterKey ++ "'.");;
          Infof ("To view all ingresses, run 'rosa list ingresses -c " ++ clusterKey ++ "'")
      end
  end
  end
  end).

End Command.

(** The packages whose code is not at hand follow the error policy. *)
Record WorldPolicy (w : World) : Prop := {
  NewRuntime_policy : FailFast (NewRuntime w);
  GetClusterKey_policy : FailFast (GetClusterKey w);
  FetchCluster_policy : FailFast (FetchCluster w)
}.

Lemma getRouteSelector_returns TrimSpace labelMatch :
  is_Some (getRouteSelector TrimSpace labelMatch).
Proof.
  unfold getRouteSelector. destruct (String.eqb labelMatch ""); [eauto|].
  destruct (decide (Forall (fun item => Contains item "=" = true) (Split labelMatch ",")))
    as [Hall|Hex].
  - rewrite Forall_forall in Hall.
    destruct (getRouteSelector_loop_ok TrimSpace _ ∅ Hall) as (m & -> & _). eauto.
  - apply not_Forall_Exists in Hex; [|apply _].
    apply Exists_exists in Hex as (item & Hin & Hno).
    rewrite getRouteSelector_loop_error; eauto.
    exists item. split; [exact Hin|]. apply not_true_iff_false, Hno.
Qed.


(** *** Further properties of the command *)

(** The three ways [getRouteSelector] can end. *)
Lemma getRouteSelector_cases (T : string -> string) (l : string) :
  (l = EmptyString /\ getRouteSelector T l = Some (Some ∅, None))
  \/ (l <> EmptyString
      /\ (exists item, item ∈ Split l "," /\ Contains item "=" = false)
      /\ getRouteSelector T l
         = Some (None, Some "Expected key=value format for label-match"%string))
  \/ (l <> EmptyString
      /\ (forall item, item ∈ Split l "," -> Contains item "=" = true)
      /\ exists m, getRouteSelector T l = Some (Some m, None) /\ m <> ∅).
Proof.
  unfold getRouteSelector. destruct (String.eqb_spec l "") as [->|Hne]; [auto|].
  right.
  destruct (decide (Forall (fun item => Contains item "=" = true) (Split l ",")))
    as [Hall|Hex].
  - right. rewrite Forall_forall in Hall. split; [exact Hne|]. split; [exact Hall|].
    destruct (getRouteSelector_loop_ok T _ ∅ Hall) as (m & -> & Hm).
    exists m. split; [reflexivity|]. intros ->.
    destruct (last (Split l ",")) as [x|] eqn:Hlast.
    + apply last_Some in Hlast as [pre Hpre].
      assert (H : (∅ : gmap string string) !! item_key T x = Some (item_value T x)).
      { apply Hm. left. exists pre, x, []. rewrite Hpre. repeat split; auto.
        intros item' Hin. apply elem_of_nil in Hin. destruct Hin. }
      rewrite lookup_empty in H. discriminate.
    + apply last_None in Hlast. rewrite Split_before_after in Hlast. discriminate.
  - left. apply not_Forall_Exists in Hex; [|apply _].
    apply Exists_exists in Hex as (item & Hin & Hno).
    assert (Hbad : exists item, item ∈ Split l "," /\ Contains item "=" = false).
    { exists item. split; [exact Hin|]. apply not_true_iff_false, Hno. }
    split; [exact Hne|]. split; [exact Hbad|].
    apply getRouteSelector_loop_error, Hbad.
Qed.

(** X11. A label match that is not empty and is accepted gives at least
    one route selector; the empty map comes from the empty string only. *)
Theorem getRouteSelector_not_empty (T : string -> string) (l : string)
    (m : gmap string string) :
  getRouteSelector T l = Some (Some m, None) -> (m = ∅ <-> l = EmptyString).
Proof.
  intros Hres.
  destruct (getRouteSelector_cases T l) as [[-> H]|[(Hne & _ & H)|(Hne & _ & m' & H & Hm)]];
    rewrite H in Hres; simplify_eq.
  - split; reflexivity.
  - split; intros; contradiction.
Qed.

Lemma getRouteSelector_not_empty_witness :
  ({[ "foo"%string := "bar"%string ]} : gmap string string) = ∅
  <-> "foo=bar"%string = EmptyString.
Proof.
  apply (getRouteSelector_not_empty TrimSpace_ascii).
  vm_compute. reflexivity.
Defined.

(** X12. [labelValidator] accepts a string exactly when it is empty or
    each of its comma-separated items has a '=', that is exactly when
    [getRouteSelector] accepts it, and rejects every value that is not a
    string, [nil] too. *)
Theorem labelValidator_accepts (w : World) :
  (forall s, labelValidator w (Interactive.VString s) = None
     <-> s = EmptyString \/ forall item, item ∈ Split s "," -> Contains item "=" = true)
  /\ (forall s, labelValidator w (Interactive.VString s) = None
     <-> exists m, getRouteSelector (TrimSpace w) s = Some (Some m, None))
  /\ (forall v, ~ Interactive.is_string v -> is_Some (labelValidator w v)).
Proof.
  split; [|split].
  - intros s. simpl.
    destruct (getRouteSelector_cases (TrimSpace w) s)
      as [[-> H]|[(Hne & (item & Hin & Hno) & H)|(Hne & Hall & m & H & Hm)]];
      rewrite H; simpl.
    + split; auto.
    + split; [discriminate|]. intros [?|Hall]; [contradiction|].
      rewrite (Hall item Hin) in Hno. discriminate.
    + split; auto.
  - intros s. simpl.
    destruct (getRouteSelector_cases (TrimSpace w) s)
      as [[-> H]|[(Hne & _ & H)|(Hne & _ & m & H & _)]]; rewrite H; simpl.
    + split; eauto.
    + split; [discriminate|]. intros [m [=]].
    + split; eauto.
  - intros v Hv. destruct v; simpl; eauto. destruct Hv. eexists; reflexivity.
Qed.

(** The packages called before the ingress is built answer at once and
    do nothing else: the cluster key is [clusterKey], the cluster
    [cluster]. *)
Record Answers (w : World) (clusterKey : string) (cluster : Cluster) : Prop := {
  NewRuntime_answer : forall s, NewRuntime w s = ([], Done tt s);
  GetClusterKey_answer : forall s, GetClusterKey w s = ([], Done clusterKey s);
  FetchCluster_answer : forall s, FetchCluster w s = ([], Done cluster s)
}.

(** A world in which every prompt keeps the default and every call
    succeeds. *)
Definition plain_world (cluster : Cluster) : World :=
  {| TrimSpace := TrimSpace_ascii;
     Sprint := fun _ => "?"%string;
     NewRuntime := mret tt;
     GetClusterKey := mret "mycluster"%string;
     GetString := fun d _ => inl d;
     FetchCluster := mret cluster;
     GetBool_private := fun d => inl d;
     GetBool_nlb := fun d => inl d;
     Build := fun _ => None;
     remote_result := fun _ => None |}.

Definition flags (private nlb : bool) (labelMatch : string) : State :=
  {| args := {| private := private; labelMatch := labelMatch; nlb := nlb |};
     interactive_enabled := false |}.

Lemma plain_world_Answers cluster : Answers (plain_world cluster) "mycluster" cluster.
Proof. split; reflexivity. Qed.

(** X13. On a PrivateLink cluster and on a cluster that is not ready,
    [run] asks for no ingress to be created and ends with status 1. *)
Theorem run_refuses_cluster (w : World) (s : State) (clusterKey : string)
    (cluster : Cluster) :
  Answers w clusterKey cluster ->
  cluster_PrivateLink cluster = true \/ cluster_State cluster <> ClusterStateReady ->
  calls (run w s).1 = [] /\ exit_status (run w s) = 1.
Proof.
  intros Hw Hcluster.
  assert (Hcase : forall l, exists r, getRouteSelector (TrimSpace w) l = Some r).
  { intros l. destruct (getRouteSelector_returns (TrimSpace w) l) as [r Hr]. eauto. }
  unfold run, defer, r_Cleanup, mbind, cmd_bind, mret, cmd_ret, gets, remote_call, Errorf, Infof, emit,
    os_Exit, panic.
  rewrite (NewRuntime_answer _ _ _ Hw), (GetClusterKey_answer _ _ _ Hw). simpl.
  destruct (interactive_enabled s); simpl.
  - destruct (GetString w (labelMatch (args s)) [labelValidator w]) as [l|err]; simpl;
      [|split; reflexivity].
    destruct (Hcase l) as [[m [err|]] ->]; simpl; [split; reflexivity|].
    rewrite (FetchCluster_answer _ _ _ Hw). simpl.
    destruct (cluster_PrivateLink cluster); simpl; [split; reflexivity|].
    destruct (cluster_State cluster); simpl; [|split; reflexivity].
    destruct Hcluster as [|Hst]; [discriminate|]. destruct Hst. reflexivity.
  - destruct (Hcase (labelMatch (args s))) as [[m [err|]] ->]; simpl;
      [split; reflexivity|].
    rewrite (FetchCluster_answer _ _ _ Hw). simpl.
    destruct (cluster_PrivateLink cluster); simpl; [split; reflexivity|].
    destruct (cluster_State cluster); simpl; [|split; reflexivity].
    destruct Hcluster as [|Hst]; [discriminate|]. destruct Hst. reflexivity.
Qed.

Lemma run_refuses_cluster_witness :
  let cluster := {| cluster_ID := "c1"; cluster_PrivateLink := true;
                    cluster_State := ClusterStateReady |} in
  calls (run (plain_world cluster) (flags false false "a=b")).1 = []
  /\ exit_status (run (plain_world cluster) (flags false false "a=b")) = 1.
Proof.
  apply (run_refuses_cluster _ _ "mycluster"
           {| cluster_ID := "c1"; cluster_PrivateLink := true;
              cluster_State := ClusterStateReady |}).
  - apply plain_world_Answers.
  - left. reflexivity.
Defined.

(** X14. Without prompts, on a ready cluster that is not PrivateLink and
    with an accepted label match, [run] makes one remote call: it creates
    on that cluster an ingress that listens internally exactly when
    [--private] is set, has a network load balancer exactly when [--nlb]
    is set and a classic one otherwise, and carries the route selectors of
    the label match, none being set for the empty label match.  The run
    ends with status 0 exactly when that call succeeds. *)
Theorem run_creates_ingress (w : World) (s : State) (clusterKey : string)
    (cluster : Cluster) (m : gmap string string) :
  Answers w clusterKey cluster ->
  interactive_enabled s = false ->
  cluster_PrivateLink cluster = false ->
  cluster_State cluster = ClusterStateReady ->
  getRouteSelector (TrimSpace w) (labelMatch (args s)) = Some (Some m, None) ->
  let ingress :=
    {| ingress_Listening :=
         Some (if private (args s) then ListeningMethodInternal
               else ListeningMethodExternal);
       ingress_LoadBalancerType :=
         Some (if nlb (args s) then NetworkLoadBalancer else ClassicLoadBalancer);
       ingress_RouteSelectors :=
         if String.eqb (labelMatch (args s)) "" then None else Some m |} in
  Build w ingress = None ->
  calls (run w s).1 = [CreateIngress (cluster_ID cluster) ingress]
  /\ (exit_status (run w s) = 0
      <-> remote_result w (CreateIngress (cluster_ID cluster) ingress) = None).
Proof.
  intros Hw Hint Hpl Hst Hsel ingress Hbuild.
  assert (Hlen : (0 <? size m)%nat = negb (String.eqb (labelMatch (args s)) "")).
  { destruct (getRouteSelector_cases (TrimSpace w) (labelMatch (args s)))
      as [[He H]|[(Hne & _ & H)|(Hne & _ & m' & H & Hm)]];
      rewrite H in Hsel; simplify_eq.
    - rewrite He. reflexivity.
    - destruct (String.eqb_spec (labelMatch (args s)) ""); [contradiction|].
      simpl. apply Nat.ltb_lt. apply map_size_non_empty_iff in Hm. lia. }
  unfold run, defer, r_Cleanup, mbind, cmd_bind, mret, cmd_ret, gets, remote_call, Errorf, Infof, emit,
    os_Exit, panic.
  rewrite (NewRuntime_answer _ _ _ Hw), (GetClusterKey_answer _ _ _ Hw). simpl.
  rewrite Hint. simpl. rewrite Hsel. simpl.
  rewrite (FetchCluster_answer _ _ _ Hw). simpl.
  rewrite Hpl, Hst. simpl. rewrite Hlen.
  assert (Hb : (if negb (String.eqb (labelMatch (args s)) "")
                then RouteSelectors m
                       (if nlb (args s)
                        then LoadBalancerType NetworkLoadBalancer
                               (if private (args s)
                                then Listening ListeningMethodInternal NewIngress
                                else Listening ListeningMethodExternal NewIngress)
                        else LoadBalancerType ClassicLoadBalancer
                               (if private (args s)
                                then Listening ListeningMethodInternal NewIngress
                                else Listening ListeningMethodExternal NewIngress))
                else
                  if nlb (args s)
                  then LoadBalancerType NetworkLoadBalancer
                         (if private (args s)
                          then Listening ListeningMethodInternal NewIngress
                          else Listening ListeningMethodExternal NewIngress)
                  else LoadBalancerType ClassicLoadBalancer
                         (if private (args s)
                          then Listening ListeningMethodInternal NewIngress
                          else Listening ListeningMethodExternal NewIngress)) = ingress).
  { subst ingress.
    destruct (String.eqb (labelMatch (args s)) ""), (nlb (args s)), (private (args s));
      reflexivity. }
  rewrite Hb, Hbuild. simpl.
  destruct (remote_result w (CreateIngress (cluster_ID cluster) ingress)); simpl.
  - split; [reflexivity|]. split; discriminate.
  - split; [reflexivity|]. split; reflexivity.
Qed.

Lemma run_creates_ingress_witness :
  let cluster := {| cluster_ID := "c1"; cluster_PrivateLink := false;
                    cluster_State := ClusterStateReady |} in
  let w := plain_world cluster in
  let s := flags true false "foo=bar" in
  let ingress :=
    {| ingress_Listening := Some ListeningMethodInternal;
       ingress_LoadBalancerType := Some ClassicLoadBalancer;
       ingress_RouteSelectors := Some {[ "foo"%string := "bar"%string ]} |} in
  calls (run w s).1 = [CreateIngress "c1" ingress]
  /\ (exit_status (run w s) = 0 <-> remote_result w (CreateIngress "c1" ingress) = None).
Proof.
  apply (run_creates_ingress
           (plain_world {| cluster_ID := "c1"; cluster_PrivateLink := false;
                           cluster_State := ClusterStateReady |})
           (flags true false "foo=bar") "mycluster"
           {| cluster_ID := "c1"; cluster_PrivateLink := false;
              cluster_State := ClusterStateReady |}
           {[ "foo"%string := "bar"%string ]}).
  - apply plain_world_Answers.
  - reflexivity.
  - reflexivity.
  - reflexivity.
  - vm_compute. reflexivity.
  - reflexivity.
Defined.

End Ingress.

(** ** The error policy of the commands *)




Definition sample_ingress_world : Ingress.World :=
  {| Ingress.TrimSpace := TrimSpace_ascii;
     Ingress.NewRuntime := mret tt;
     Ingress.GetClusterKey := mret "mycluster"%string;
     Ingress.Sprint := fun _ => "?"%string;
     Ingress.GetString := fun d _ => inl d;
     Ingress.FetchCluster :=
       mret {| Ingress.cluster_ID := "c1"; Ingress.cluster_PrivateLink := false;
               Ingress.cluster_State := Ingress.ClusterStateReady |};
     Ingress.GetBool_private := fun d => inl d;
     Ingress.GetBool_nlb := fun d => inl d;
     Ingress.Build := fun _ => None;
     Ingress.remote_result := fun _ => None |}.

Definition sample_ingress_state (labelMatch : string) : Ingress.State :=
  {| Ingress.args := {| Ingress.private := true; Ingress.labelMatch := labelMatch;
                        Ingress.nlb := false |};
     Ingress.interactive_enabled := false |}.




Example oidcconfig_run_bucket_fails :
  OidcConfig.run OidcConfig.quiet_world OidcConfig.sample_state
  = ([Call (OidcConfig.HasAClusterUsingOidcConfig "oidc-a1b2");
      Report Info "Deleting OIDC configuration 'oidc-a1b2'";
      Spinner true;
      Call (OidcConfig.DeleteSecretInSecretsManager
              "arn:aws:secretsmanager:us-east-1:1:secret:k");
      Call (OidcConfig.DeleteS3Bucket "oidc-a1b2");
      Report Error "There was a problem deleting S3 bucket 'oidc-a1b2': AccessDenied"],
     Exited 1).
Proof. vm_compute. reflexivity. Qed.

Example ingress_run_ok :
  exit_status (Ingress.run sample_ingress_world (sample_ingress_state "foo=bar")) = 0
  /\ calls (Ingress.run sample_ingress_world (sample_ingress_state "foo=bar")).1
     = [Ingress.CreateIngress "c1"
          {| Ingress.ingress_Listening := Some Ingress.ListeningMethodInternal;
             Ingress.ingress_LoadBalancerType := Some Ingress.ClassicLoadBalancer;
             Ingress.ingress_RouteSelectors := Some {[ "foo"%string := "bar"%string ]} |}].
Proof. split; vm_compute; reflexivity. Qed.

Example ingress_run_bad_label :
  Ingress.run sample_ingress_world (sample_ingress_state "foo")
  = ([Report Error "Expected key=value format for label-match"], Exited 1).
Proof. vm_compute. reflexivity. Qed.

(** ** [cmd/create/machinepool] *)
Module MachinePool.

(** [cmv1.AWSNodePoolBuilder] and the [cmv1.AWSNodePool] it builds, by the
    three attributes the helper sets; an attribute never set is [None]. *)
Record AWSNodePoolBuilder := {
  builder_instanceType : option string;
  builder_additionalSecurityGroupIds : option (list string);
  builder_tags : option (gmap string string)
}.

Record AWSNodePool := {
  pool_instanceType : option string;
  pool_additionalSecurityGroupIds : option (list string);
  pool_tags : option (gmap string string)
}.

Definition NewAWSNodePool : AWSNodePoolBuilder :=
  {| builder_instanceType := None;
     builder_additionalSecurityGroupIds := None;
     builder_tags := None |}.

Definition set_InstanceType (value : string) (b : AWSNodePoolBuilder) : AWSNodePoolBuilder :=
  {| builder_instanceType := Some value;
     builder_additionalSecurityGroupIds := builder_additionalSecurityGroupIds b;
     builder_tags := builder_tags b |}.

Definition set_AdditionalSecurityGroupIds (values : list string) (b : AWSNodePoolBuilder)
  : AWSNodePoolBuilder :=
  {| builder_instanceType := builder_instanceType b;
     builder_additionalSecurityGroupIds := Some values;
     builder_tags := builder_tags b |}.

Definition set_Tags (value : gmap string string) (b : AWSNodePoolBuilder)
  : AWSNodePoolBuilder :=
  {| builder_instanceType := builder_instanceType b;
     builder_additionalSecurityGroupIds := builder_additionalSecurityGroupIds b;
     builder_tags := Some value |}.

(** [Build] copies the attributes and returns no error. *)
Definition Build (b : AWSNodePoolBuilder) : AWSNodePool * option error :=
  ({| pool_instanceType := builder_instanceType b;
      pool_additionalSecurityGroupIds := builder_additionalSecurityGroupIds b;
      pool_tags := builder_tags b |}, None).

(** The getters return the zero value of an attribute never set. *)
Definition InstanceType (p : AWSNodePool) : string :=
  default EmptyString (pool_instanceType p).
Definition AdditionalSecurityGroupIds (p : AWSNodePool) : list string :=
  default [] (pool_additionalSecurityGroupIds p).
Definition Tags (p : AWSNodePool) : gmap string string :=
  default ∅ (pool_tags p).

(** Modelled from the spec: [createAwsNodePoolBuilder] of
    [cmd/create/machinepool/helper.go], which is not among the sources (its
    test is): the builder of a node pool with the given instance type,
    additional security group IDs and tags. *)
Definition createAwsNodePoolBuilder (instanceType : string) (securityGroupIds : list string)
    (awsTags : gmap string string) : AWSNodePoolBuilder :=
  set_Tags awsTags
    (set_AdditionalSecurityGroupIds securityGroupIds
       (set_InstanceType instanceType NewAWSNodePool)).

(** C4. For every instance type, list of security group IDs and map of
    tags, building the node pool of [createAwsNodePoolBuilder] succeeds and
    the pool carries exactly these three; with an empty map of tags the
    pool has no tag. *)
Theorem createAwsNodePoolBuilder_builds (instanceType : string)
    (securityGroupIds : list string) (awsTags : gmap string string) :
  exists awsNodePool,
    Build (createAwsNodePoolBuilder instanceType securityGroupIds awsTags)
    = (awsNodePool, None)
    /\ InstanceType awsNodePool = instanceType
    /\ AdditionalSecurityGroupIds awsNodePool = securityGroupIds
    /\ Tags awsNodePool = awsTags
    /\ (awsTags = ∅ -> size (Tags awsNodePool) = 0%nat).
Proof.
  eexists. split; [reflexivity|]. simpl. repeat split.
  intros ->. reflexivity.
Qed.

Example createAwsNodePoolBuilder_test :
  let '(awsNodePool, err) :=
    Build (createAwsNodePoolBuilder "123" ["123"%string]
             {[ "label"%string := "value"%string ]}) in
  err = None
  /\ AdditionalSecurityGroupIds awsNodePool = ["123"%string]
  /\ InstanceType awsNodePool = "123"%string
  /\ Tags awsNodePool = {[ "label"%string := "value"%string ]}.
Proof. repeat split. Qed.

End MachinePool.
